(** * Variant generation, reconciliation and emission of
      [create-product-variants.tsx]

    A shallow embedding of the three computations of the component
    [CreateProductVariants]:

    - [generateVariants], with its local closure [generateCombinations],
      which expands option groups into the list of variants;
    - the body of the second effect, which initialises the form record for
      every generated id ([reconcile]);
    - the [form.watch] callback of the first effect, which builds the payload
      handed to [onChange] ([watchCallback]).

    JavaScript strings are [string]; arrays are [list]; a property that may be
    [undefined] is an [option]; a thrown [TypeError] is the result [None].
    The generator is given a second time with its arrays as cells of a heap
    ([generateVariantsOnHeap]), to state what it writes.
    The form record [Record<string, VariantForm>] is a plain object: its own
    properties are a [gmap string VariantForm], and reading a key it does not
    own falls through to [Object.prototype] ([getProperty]). *)

From Equations Require Import Equations.
From stdpp Require Import base option list strings gmap fin_maps.
From Stdlib Require Import Arith Lia Ascii.

Local Open Scope string_scope.
Local Open Scope list_scope.
Local Open Scope nat_scope.

(** ** Data model *)

(** An element of [OptionGroupConfiguration['optionGroups'][number]['values']]. *)
Record OptionValue := mkOptionValue {
  ov_value : string;
  ov_id : string
}.

(** An element of [OptionGroupConfiguration['optionGroups']]. *)
Record OptionGroup := mkOptionGroup {
  og_name : string;
  og_values : list OptionValue
}.

Record VariantOption := mkVariantOption {
  vo_name : string;
  vo_value : string;
  vo_id : string
}.

Record GeneratedVariant := mkGeneratedVariant {
  gv_id : string;
  gv_name : string;
  gv_values : list string;
  gv_options : list VariantOption;
  gv_enabled : bool;
  gv_sku : string;
  gv_price : string;
  gv_stock : string
}.

(** A value of the form record.  The watch callback receives a deep-partial
    copy of the form values, so every field may be [undefined]. *)
Record VariantForm := mkVariantForm {
  vf_enabled : option bool;
  vf_sku : option string;
  vf_price : option string;
  vf_stock : option string
}.

(** An element of [VariantConfiguration['variants']]. *)
Record ActiveVariant := mkActiveVariant {
  av_enabled : bool;
  av_sku : string;
  av_price : string;
  av_stock : string;
  av_options : list VariantOption
}.

Record VariantConfiguration := mkVariantConfiguration {
  vc_optionGroups : list OptionGroup;
  vc_variants : list ActiveVariant
}.

(** ** JavaScript primitives used by the source *)

(** Truthiness of a string: only the empty string is falsy. *)
Definition truthy_string (s : string) : bool :=
  match s with
  | EmptyString => false
  | String _ _ => true
  end.

(** [Array.prototype.join] on an array of strings. *)
Definition join (sep : string) (l : list string) : string :=
  String.concat sep l.

(** [a ?? b]. *)
Definition nullish {A} (a : option A) (b : A) : A :=
  match a with
  | Some x => x
  | None => b
  end.

(** The property names every plain object inherits from [Object.prototype]
    (the standard ones and those of Annex B). *)
Definition objectPrototypeNames : list string :=
  ["constructor"; "__defineGetter__"; "__defineSetter__"; "hasOwnProperty";
   "__lookupGetter__"; "__lookupSetter__"; "isPrototypeOf";
   "propertyIsEnumerable"; "toString"; "valueOf"; "__proto__";
   "toLocaleString"].

Definition inheritedName (key : string) : bool :=
  bool_decide (key ∈ objectPrototypeNames).

(** What [obj[key]] evaluates to on a record of form values: the own entry,
    else the member inherited from [Object.prototype] (a function, or the
    prototype itself for [__proto__]), else [undefined].  The first two are
    truthy, the last is falsy. *)
Inductive Property :=
| OwnEntry (formVariant : VariantForm)
| InheritedMember
| Undefined.

Definition getProperty (obj : gmap string VariantForm) (key : string)
    : Property :=
  match obj !! key with
  | Some formVariant => OwnEntry formVariant
  | None => if inheritedName key then InheritedMember else Undefined
  end.

(** [r || {}] on a record that may be [undefined]. *)
Definition orEmpty (r : option (gmap string VariantForm))
    : gmap string VariantForm :=
  match r with
  | Some m => m
  | None => ∅
  end.

(** [xs.forEach(x => { results.push(...f(x)) })] where [f] may throw:
    the loop threads the array [results]; an exception aborts it. *)
Definition forEach_push {A B} (f : A -> option (list B)) (xs : list A)
    (results : list B) : option (list B) :=
  foldl
    (fun acc x =>
       match acc with
       | Some res =>
           match f x with
           | Some subResults => Some (res ++ subResults)
           | None => None
           end
       | None => None
       end)
    (Some results) xs.

(** ** The generator *)

(** The variant returned by both early exits of [generateVariants]. *)
Definition defaultVariant : GeneratedVariant :=
  {| gv_id := "default"; gv_name := ""; gv_values := []; gv_options := [];
     gv_enabled := true; gv_sku := ""; gv_price := ""; gv_stock := "" |}.

(** The object literal built when [currentIndex === optionGroups.length]. *)
Definition variantOfCombination (currentCombination : list VariantOption)
    : GeneratedVariant :=
  {| gv_id := join "-" (map vo_id currentCombination);
     gv_name := join " " (map vo_value currentCombination);
     gv_values := map vo_value currentCombination;
     gv_options := currentCombination;
     gv_enabled := true; gv_sku := ""; gv_price := ""; gv_stock := "" |}.

(** The object literal appended to [currentCombination]. *)
Definition optionOf (currentGroup : OptionGroup) (optionValue : OptionValue)
    : VariantOption :=
  {| vo_name := og_name currentGroup;
     vo_value := ov_value optionValue;
     vo_id := ov_id optionValue |}.

(** The predicate of [groups.filter(...)]:
    [group.name && group.values && group.values.length > 0]. *)
Definition validGroup (group : OptionGroup) : bool :=
  truthy_string (og_name group) && (0 <? length (og_values group)).

Definition inspect {A} (a : A) : {b : A | a = b} := exist _ a eq_refl.

(** The closure [generateCombinations].  [optionGroups[currentIndex]] is
    [undefined] beyond the end of the array, and reading [.values] of it
    throws: that is the [None] result.  The recursion is on the number of
    groups left after [currentIndex]. *)
Equations? generateCombinations (optionGroups : list OptionGroup)
    (currentIndex : nat) (currentCombination : list VariantOption)
    : option (list GeneratedVariant)
    by wf (length optionGroups - currentIndex) lt :=
  generateCombinations optionGroups currentIndex currentCombination
    with Nat.eq_dec currentIndex (length optionGroups) => {
    | left _ => Some [variantOfCombination currentCombination]
    | right _ with inspect (optionGroups !! currentIndex) => {
      | exist _ None _ => None
      | exist _ (Some currentGroup) Hlookup =>
          forEach_push
            (fun optionValue =>
               let newCombination :=
                 currentCombination ++ [optionOf currentGroup optionValue] in
               generateCombinations optionGroups (currentIndex + 1)
                 newCombination)
            (og_values currentGroup) []
      }
    }.
Proof.
  apply lookup_lt_Some in Hlookup. lia.
Qed.

Definition generateVariants (groups : list OptionGroup)
    : option (list GeneratedVariant) :=
  if length groups =? 0 then Some [defaultVariant]
  else
    let validGroups := List.filter validGroup groups in
    if length validGroups =? 0 then Some [defaultVariant]
    else generateCombinations validGroups 0 [].

(** ** Reconciliation of the form record *)

(** The object literal assigned to a missing id by the second effect. *)
Definition initialVariantForm : VariantForm :=
  {| vf_enabled := Some true; vf_sku := Some ""; vf_price := Some "";
     vf_stock := Some "" |}.

(** The callback of [variants.forEach] in the second effect:
    [if (!updatedVariants[variant.id]) updatedVariants[variant.id] = {...}].
    The assignment only happens for a key that is neither owned nor
    inherited, where it creates an own property. *)
Definition reconcileStep (updatedVariants : gmap string VariantForm)
    (variant : GeneratedVariant) : gmap string VariantForm :=
  match getProperty updatedVariants (gv_id variant) with
  | OwnEntry _ => updatedVariants
  | InheritedMember => updatedVariants
  | Undefined => <[gv_id variant := initialVariantForm]> updatedVariants
  end.

(** Body of the second [useEffect]: the argument is
    [form.getValues().variants], the result is the record passed to
    [setValue('variants', ...)]. *)
Definition reconcile (variants : list GeneratedVariant)
    (getValues_variants : option (gmap string VariantForm))
    : gmap string VariantForm :=
  let currentVariants := orEmpty getValues_variants in
  let updatedVariants := currentVariants in
  foldl reconcileStep updatedVariants variants.

(** ** Emission of the payload *)

(** The object literal pushed on [activeVariants]. *)
Definition activeVariantOf (formVariant : VariantForm)
    (variant : GeneratedVariant) : ActiveVariant :=
  {| av_enabled := nullish (vf_enabled formVariant) true;
     av_sku := nullish (vf_sku formVariant) "";
     av_price := nullish (vf_price formVariant) "";
     av_stock := nullish (vf_stock formVariant) "";
     av_options := gv_options variant |}.

(** What reading [enabled], [sku], [price] and [stock] gives on a member
    inherited from [Object.prototype]: none of them has such a property. *)
Definition inheritedMemberFields : VariantForm :=
  {| vf_enabled := None; vf_sku := None; vf_price := None;
     vf_stock := None |}.

(** The callback of [variants.forEach] in the watch callback.  The test
    [variant && typeof variant === 'object'] holds of every element of a
    [GeneratedVariant[]]; [if (formVariant)] is passed by an own entry and by
    an inherited member, and the four fields are then read off it. *)
Definition watchStep (formVariants : gmap string VariantForm)
    (activeVariants : list ActiveVariant) (variant : GeneratedVariant)
    : list ActiveVariant :=
  match getProperty formVariants (gv_id variant) with
  | OwnEntry formVariant =>
      activeVariants ++ [activeVariantOf formVariant variant]
  | InheritedMember =>
      activeVariants ++ [activeVariantOf inheritedMemberFields variant]
  | Undefined => activeVariants
  end.

(** Body of the [form.watch] callback of the first [useEffect]: the argument
    is [value?.variants], the result is [filteredData], the payload handed to
    [onChange]. *)
Definition watchCallback (optionGroups : list OptionGroup)
    (variants : list GeneratedVariant)
    (value_variants : option (gmap string VariantForm))
    : VariantConfiguration :=
  let formVariants := orEmpty value_variants in
  let activeVariants := foldl (watchStep formVariants) [] variants in
  {| vc_optionGroups := optionGroups; vc_variants := activeVariants |}.

(** ** The generator with its arrays on a heap

    To state what [generateVariants] does to memory, the same code again with
    every array as a cell of a heap.  The only writes of the source are
    allocations (array literals, [filter], [map], spread) and
    [results.push]; it assigns to no property of any object, so objects are
    values here and only arrays live on the heap.  A computation takes the
    heap and returns its result with the new heap, or [None] when it throws
    (or reads an array of another kind than its type promises). *)

Abbreviation loc := nat (only parsing).

(** A group as the source holds it: its [values] is a reference. *)
Record GroupObject := mkGroupObject {
  go_name : string;
  go_values : loc
}.

(** A generated variant as the source holds it: [values] and [options] are
    references. *)
Record VariantObject := mkVariantObject {
  vr_id : string;
  vr_name : string;
  vr_values : loc;
  vr_options : loc;
  vr_enabled : bool;
  vr_sku : string;
  vr_price : string;
  vr_stock : string
}.

Inductive Array :=
| GroupArray (elements : list GroupObject)
| ValueArray (elements : list OptionValue)
| OptionArray (elements : list VariantOption)
| StringArray (elements : list string)
| VariantArray (elements : list VariantObject).

Abbreviation Heap := (list Array).

Definition Run (A : Type) : Type := Heap -> option (A * Heap).

Definition ret {A} (a : A) : Run A := fun heap => Some (a, heap).

Definition bind {A B} (m : Run A) (k : A -> Run B) : Run B :=
  fun heap =>
    match m heap with
    | Some (a, heap') => k a heap'
    | None => None
    end.

Definition throw {A} : Run A := fun _ => None.

Notation "'let!' x ':=' m 'in' k" := (bind m (fun x => k))
  (at level 10, x name, m at level 100, k at level 200).
Notation "'do!' m 'in' k" := (bind m (fun _ => k))
  (at level 10, m at level 100, k at level 200).

(** A new array: it gets the next free location. *)
Definition alloc (array : Array) : Run loc :=
  fun heap => Some (length heap, heap ++ [array]).

Definition readGroups (l : loc) : Run (list GroupObject) :=
  fun heap =>
    match heap !! l with
    | Some (GroupArray elements) => Some (elements, heap)
    | _ => None
    end.

Definition readValues (l : loc) : Run (list OptionValue) :=
  fun heap =>
    match heap !! l with
    | Some (ValueArray elements) => Some (elements, heap)
    | _ => None
    end.

Definition readOptions (l : loc) : Run (list VariantOption) :=
  fun heap =>
    match heap !! l with
    | Some (OptionArray elements) => Some (elements, heap)
    | _ => None
    end.

Definition readStrings (l : loc) : Run (list string) :=
  fun heap =>
    match heap !! l with
    | Some (StringArray elements) => Some (elements, heap)
    | _ => None
    end.

Definition readVariants (l : loc) : Run (list VariantObject) :=
  fun heap =>
    match heap !! l with
    | Some (VariantArray elements) => Some (elements, heap)
    | _ => None
    end.

(** [array.push(...elements)]: the one write to an existing array. *)
Definition push (l : loc) (elements : list VariantObject) : Run unit :=
  fun heap =>
    match heap !! l with
    | Some (VariantArray old) =>
        Some (tt, <[l := VariantArray (old ++ elements)]> heap)
    | _ => None
    end.

(** [array.forEach(body)] on an array of values: the length is read once,
    each element when its turn comes. *)
Fixpoint forEachFrom (k count : nat) (array : loc)
    (body : OptionValue -> Run unit) : Run unit :=
  match count with
  | 0 => ret tt
  | S count' =>
      let! elements := readValues array in
      do! match elements !! k with
          | Some element => body element
          | None => ret tt
          end in
      forEachFrom (S k) count' array body
  end.

Definition forEach (array : loc) (body : OptionValue -> Run unit)
    : Run unit :=
  let! elements := readValues array in
  forEachFrom 0 (length elements) array body.

(** The predicate [group.name && group.values && group.values.length > 0]:
    the values are only read when the name is truthy. *)
Definition validGroupOnHeap (group : GroupObject) : Run bool :=
  if truthy_string (go_name group)
  then let! values := readValues (go_values group) in
       ret (0 <? length values)
  else ret false.

(** The loop of [groups.filter(...)]: the groups that pass, in order. *)
Fixpoint filterValid (groups : list GroupObject) : Run (list GroupObject) :=
  match groups with
  | [] => ret []
  | group :: rest =>
      let! keep := validGroupOnHeap group in
      let! kept := filterValid rest in
      ret (if keep : bool then group :: kept else kept)
  end.

(** The array literal of both early exits. *)
Definition defaultVariantArray : Run loc :=
  let! values := alloc (StringArray []) in
  let! options := alloc (OptionArray []) in
  alloc (VariantArray
           [ {| vr_id := "default"; vr_name := ""; vr_values := values;
                vr_options := options; vr_enabled := true; vr_sku := "";
                vr_price := ""; vr_stock := "" |} ]).

(** The array literal of the closure when [currentIndex ===
    optionGroups.length]: three [map]s over [currentCombination], two of
    them joined, and the combination itself, by reference, as [options]. *)
Definition variantArrayOfCombination (currentCombination : loc) : Run loc :=
  let! combination := readOptions currentCombination in
  let! ids := alloc (StringArray (map vo_id combination)) in
  let! idStrings := readStrings ids in
  let! combination := readOptions currentCombination in
  let! names := alloc (StringArray (map vo_value combination)) in
  let! nameStrings := readStrings names in
  let! combination := readOptions currentCombination in
  let! values := alloc (StringArray (map vo_value combination)) in
  alloc (VariantArray
           [ {| vr_id := join "-" idStrings;
                vr_name := join " " nameStrings;
                vr_values := values;
                vr_options := currentCombination;
                vr_enabled := true; vr_sku := ""; vr_price := "";
                vr_stock := "" |} ]).

(** The closure on the heap.  [fuel] bounds the depth of the recursion; the
    caller gives one more than the number of groups. *)
Fixpoint generateCombinationsOnHeap (fuel : nat) (optionGroups : loc)
    (currentIndex : nat) (currentCombination : loc) : Run loc :=
  match fuel with
  | 0 => throw
  | S fuel' =>
      let! groups := readGroups optionGroups in
      if currentIndex =? length groups
      then variantArrayOfCombination currentCombination
      else
        match groups !! currentIndex with
        | None => throw
        | Some currentGroup =>
            let! results := alloc (VariantArray []) in
            do! forEach (go_values currentGroup)
                  (fun optionValue =>
                     let! combination := readOptions currentCombination in
                     let! newCombination :=
                       alloc (OptionArray
                                (combination ++
                                 [ {| vo_name := go_name currentGroup;
                                      vo_value := ov_value optionValue;
                                      vo_id := ov_id optionValue |} ])) in
                     let! subResults :=
                       generateCombinationsOnHeap fuel' optionGroups
                         (currentIndex + 1) newCombination in
                     let! elements := readVariants subResults in
                     push results elements) in
            ret results
        end
  end.

Definition generateVariantsOnHeap (groups : loc) : Run loc :=
  let! elements := readGroups groups in
  if length elements =? 0 then defaultVariantArray
  else
    let! kept := filterValid elements in
    let! validGroups := alloc (GroupArray kept) in
    let! kept := readGroups validGroups in
    if length kept =? 0 then defaultVariantArray
    else
      let! empty := alloc (OptionArray []) in
      generateCombinationsOnHeap (S (length kept)) validGroups 0 empty.

(** What a heap holds behind a reference to an array of groups, and behind a
    reference to an array of variants. *)
Definition decodeGroup (heap : Heap) (group : GroupObject)
    : option OptionGroup :=
  match heap !! go_values group with
  | Some (ValueArray values) =>
      Some {| og_name := go_name group; og_values := values |}
  | _ => None
  end.

Definition decodeGroups (heap : Heap) (l : loc) : option (list OptionGroup) :=
  match heap !! l with
  | Some (GroupArray elements) => mapM (decodeGroup heap) elements
  | _ => None
  end.

Definition decodeVariant (heap : Heap) (variant : VariantObject)
    : option GeneratedVariant :=
  match heap !! vr_values variant, heap !! vr_options variant with
  | Some (StringArray values), Some (OptionArray options) =>
      Some {| gv_id := vr_id variant; gv_name := vr_name variant;
              gv_values := values; gv_options := options;
              gv_enabled := vr_enabled variant; gv_sku := vr_sku variant;
              gv_price := vr_price variant; gv_stock := vr_stock variant |}
  | _, _ => None
  end.

Definition decodeVariants (heap : Heap) (l : loc)
    : option (list GeneratedVariant) :=
  match heap !! l with
  | Some (VariantArray elements) => mapM (decodeVariant heap) elements
  | _ => None
  end.

(** ** Reference definitions, following the specification *)

Section LexProduct.
Context {A : Type}.

(** The ordered Cartesian product: one element of each list, the first list
    varying slowest. *)
Fixpoint lex_product (ls : list (list A)) : list (list A) :=
  match ls with
  | [] => [[]]
  | l :: rest => flat_map (fun x => map (cons x) (lex_product rest)) l
  end.

(** [n1 * n2 * ... * nk], which is 1 for no list at all. *)
Definition sizes_product (ls : list (list A)) : nat :=
  fold_right Nat.mul 1 (map (@length A) ls).

(** The combination at position [p] of the lexicographic enumeration: the
    choice in a list is the mixed-radix digit of [p] whose weight is the
    product of the sizes of the lists after it. *)
Fixpoint lex_nth (ls : list (list A)) (p : nat) : option (list A) :=
  match ls with
  | [] => if p =? 0 then Some [] else None
  | l :: rest =>
      match l !! (p / sizes_product rest) with
      | Some x =>
          match lex_nth rest (p mod sizes_product rest) with
          | Some c => Some (x :: c)
          | None => None
          end
      | None => None
      end
  end.

End LexProduct.

(** The options a group offers, in the order of its values: each carries the
    name of the group and the value string and id of one of its values. *)
Definition groupOptions (group : OptionGroup) : list VariantOption :=
  map (fun optionValue =>
         {| vo_name := og_name group;
            vo_value := ov_value optionValue;
            vo_id := ov_id optionValue |})
    (og_values group).

(** The value strings a group offers, in order. *)
Definition groupValues (group : OptionGroup) : list string :=
  map ov_value (og_values group).

(** A group is valid when its name is non-empty and it has at least one
    value. *)
Definition isValid (group : OptionGroup) : Prop :=
  og_name group <> "" /\ 1 <= length (og_values group).

#[global] Instance isValid_dec group : Decision (isValid group).
Proof. unfold isValid. apply _. Defined.

(** The groups that take part in the product, in their original order. *)
Definition validGroups (groups : list OptionGroup) : list OptionGroup :=
  filter isValid groups.

(** The value-list sizes [n1, ..., nk] of the valid groups. *)
Definition validSizes (groups : list OptionGroup) : list nat :=
  map (fun group => length (og_values group)) (validGroups groups).

(** Ids are unique within a group. *)
Definition uniqueIds (group : OptionGroup) : Prop :=
  NoDup (map ov_id (og_values group)).

#[global] Instance uniqueIds_dec group : Decision (uniqueIds group).
Proof. unfold uniqueIds. apply _. Defined.

(** The separator of the ids does not occur in a string. *)
Fixpoint dashFree (s : string) : Prop :=
  match s with
  | EmptyString => True
  | String c s' => c <> "-"%char /\ dashFree s'
  end.

(** No value id of a group contains the separator. *)
Definition dashFreeIds (group : OptionGroup) : Prop :=
  Forall (fun optionValue => dashFree (ov_id optionValue)) (og_values group).

(** The row with every field at its default. *)
Definition defaultedRow (variant : GeneratedVariant) : ActiveVariant :=
  {| av_enabled := true; av_sku := ""; av_price := ""; av_stock := "";
     av_options := gv_options variant |}.

(** The row a generated variant contributes to the payload, if any: the row
    of its own entry, a defaulted row when its id has no entry but names an
    inherited member, and none otherwise. *)
Definition rowOf (rec : gmap string VariantForm) (variant : GeneratedVariant)
    : option ActiveVariant :=
  match rec !! gv_id variant with
  | Some formVariant => Some (activeVariantOf formVariant variant)
  | None =>
      if inheritedName (gv_id variant) then Some (defaultedRow variant)
      else None
  end.

(** An id can be used as a key of the form record without meeting an
    inherited member. *)
Definition plainId (id : string) : Prop := inheritedName id = false.

#[global] Instance plainId_dec id : Decision (plainId id).
Proof. unfold plainId. apply _. Defined.

(** ** What the render reads off the generated list *)

(** [const isSingleVariant = variants.length === 1]: it selects the heading
    "Default Variant" and hides the columns "On" and "Variant". *)
Definition isSingleVariant (variants : list GeneratedVariant) : bool :=
  length variants =? 1.

(** The guard [variants.length > 0 && ...] of the table of variants. *)
Definition showsVariantTable (variants : list GeneratedVariant) : bool :=
  0 <? length variants.

(** ** Changes of the input used to state properties *)

(** A group after one more value was added at the end of its values. *)
Definition addValue (group : OptionGroup) (optionValue : OptionValue)
    : OptionGroup :=
  {| og_name := og_name group;
     og_values := og_values group ++ [optionValue] |}.

(** The value ids of a group, in order. *)
Definition groupIds (group : OptionGroup) : list string :=
  map ov_id (og_values group).

(** ** Sample inputs *)

(** Two groups whose ids are unique within each group, some of them
    containing the separator. *)
Definition dashedGroups : list OptionGroup :=
  [ mkOptionGroup "A" [mkOptionValue "x" "a"; mkOptionValue "y" "a-b"];
    mkOptionGroup "B" [mkOptionValue "p" "b-c"; mkOptionValue "q" "c"] ].

(** The group of the scenario of the specification. *)
Definition colorGroup : OptionGroup :=
  mkOptionGroup "Color" [mkOptionValue "Red" "r"; mkOptionValue "Blue" "b"].

Definition sizeGroup : OptionGroup :=
  mkOptionGroup "Size" [mkOptionValue "Small" "s"].

(** A group with a value but no name, and a group with a name but no value. *)
Definition namelessGroup : OptionGroup :=
  mkOptionGroup "" [mkOptionValue "Red" "r"].

Definition emptyGroup : OptionGroup := mkOptionGroup "Size" [].

(** The variants of [colorGroup], and the same in the opposite order with one
    of them twice. *)
Definition colorVariants : list GeneratedVariant :=
  [variantOfCombination [mkVariantOption "Color" "Red" "r"];
   variantOfCombination [mkVariantOption "Color" "Blue" "b"]].

Definition colorVariantsShuffled : list GeneratedVariant :=
  [variantOfCombination [mkVariantOption "Color" "Blue" "b"];
   variantOfCombination [mkVariantOption "Color" "Red" "r"];
   variantOfCombination [mkVariantOption "Color" "Blue" "b"]].

(** The variants of [colorGroup] with other names, values and generation-time
    fields, but the same ids and options. *)
Definition colorVariantsTouched : list GeneratedVariant :=
  [ {| gv_id := "r"; gv_name := "rouge"; gv_values := ["rouge"];
       gv_options := [mkVariantOption "Color" "Red" "r"];
       gv_enabled := false; gv_sku := "S"; gv_price := "1"; gv_stock := "2" |};
    {| gv_id := "b"; gv_name := "bleu"; gv_values := [];
       gv_options := [mkVariantOption "Color" "Blue" "b"];
       gv_enabled := true; gv_sku := ""; gv_price := "9"; gv_stock := "" |} ].

(** The two variants of [dashedGroups] whose ids clash. *)
Definition clashVariants : list GeneratedVariant :=
  [variantOfCombination
     [mkVariantOption "A" "x" "a"; mkVariantOption "B" "p" "b-c"];
   variantOfCombination
     [mkVariantOption "A" "y" "a-b"; mkVariantOption "B" "q" "c"]].



(** Two heaps that hold [colorGroup], [namelessGroup] and [sizeGroup] at
    different places, the second among other arrays. *)
Definition sampleHeap : Heap :=
  [ ValueArray [mkOptionValue "Red" "r"; mkOptionValue "Blue" "b"];
    ValueArray [mkOptionValue "Red" "r"];
    ValueArray [mkOptionValue "Small" "s"];
    GroupArray [mkGroupObject "Color" 0; mkGroupObject "" 1;
                mkGroupObject "Size" 2] ].

Definition otherHeap : Heap :=
  [ VariantArray [];
    GroupArray [mkGroupObject "Color" 3; mkGroupObject "" 4;
                mkGroupObject "Size" 2];
    ValueArray [mkOptionValue "Small" "s"];
    ValueArray [mkOptionValue "Red" "r"; mkOptionValue "Blue" "b"];
    ValueArray [mkOptionValue "Red" "r"];
    StringArray ["kept"] ].

(** A record with an edited entry for "r" and a stale entry. *)
Definition editedRecord : gmap string VariantForm :=
  <["r" := mkVariantForm (Some false) (Some "RED-1") None (Some "3")]>
    {["old" := mkVariantForm (Some true) (Some "OLD") (Some "1") (Some "2")]}.

(** ** Proof automation *)

(** Closes a decidable closed goal by evaluation. *)
Ltac by_evaluation := apply (bool_decide_unpack _); vm_compute; exact I.

(** * Theorems *)

(** ** The ordered Cartesian product *)

Section LexProductFacts.
Context {A : Type}.
Implicit Types (l : list A) (ls : list (list A)).

Lemma sizes_product_cons l ls :
  sizes_product (l :: ls) = length l * sizes_product ls.
Proof. reflexivity. Qed.

Lemma length_flat_map_const {B} (f : A -> list B) l m :
  (forall x, length (f x) = m) -> length (flat_map f l) = length l * m.
Proof.
  intros Hf. induction l as [|x l IH]; simpl; [reflexivity|].
  rewrite length_app, Hf, IH. reflexivity.
Qed.

Lemma lex_product_length ls : length (lex_product ls) = sizes_product ls.
Proof.
  induction ls as [|l ls IH]; [reflexivity|].
  rewrite sizes_product_cons. simpl.
  apply length_flat_map_const. intros x. rewrite length_map. exact IH.
Qed.

Lemma lex_product_empty ls :
  sizes_product ls = 0 -> lex_product ls = [].
Proof.
  intros Hz. apply length_zero_iff_nil.
  rewrite lex_product_length. exact Hz.
Qed.

(** Looking up a position in a concatenation of blocks of equal size. *)
Lemma lookup_flat_map_const {B} (f : A -> list B) l m p :
  0 < m -> (forall x, length (f x) = m) ->
  flat_map f l !! p =
  match l !! (p / m) with
  | Some x => f x !! (p mod m)
  | None => None
  end.
Proof.
  intros Hm Hf. revert p. induction l as [|x l IH]; intros p; simpl.
  - rewrite !lookup_nil. reflexivity.
  - destruct (Nat.lt_ge_cases p m) as [Hlt|Hge].
    + rewrite lookup_app_l by (rewrite Hf; exact Hlt).
      rewrite Nat.div_small, Nat.mod_small by exact Hlt. reflexivity.
    + rewrite lookup_app_r by (rewrite Hf; exact Hge).
      rewrite Hf, IH.
      assert (Hdiv : p / m = S ((p - m) / m)).
      { replace p with ((p - m) + 1 * m) at 1 by lia.
        rewrite Nat.div_add by lia. lia. }
      assert (Hmod : p mod m = (p - m) mod m).
      { replace p with ((p - m) + 1 * m) at 1 by lia.
        apply Nat.Div0.mod_add. }
      rewrite Hdiv, Hmod. reflexivity.
Qed.

(** The list [lex_product] is the enumeration that [lex_nth] describes. *)
Lemma lex_product_lookup ls p : lex_product ls !! p = lex_nth ls p.
Proof.
  revert p. induction ls as [|l ls IH]; intros p.
  - destruct p; reflexivity.
  - cbn [lex_product lex_nth].
    destruct (Nat.eq_0_gt_0_cases (sizes_product ls)) as [Hz|Hpos].
    + assert (Hnone : forall q, lex_nth ls q = None).
      { intros q. rewrite <- IH, (lex_product_empty _ Hz). reflexivity. }
      rewrite Hnone.
      assert (Hout : flat_map (fun x => map (cons x) (lex_product ls)) l !! p
                     = None).
      { apply lookup_ge_None.
        rewrite (length_flat_map_const _ _ 0); [lia|].
        intros x. rewrite length_map, lex_product_length. exact Hz. }
      rewrite Hout. destruct (l !! _); reflexivity.
    + rewrite (lookup_flat_map_const _ _ (sizes_product ls)); [|exact Hpos|].
      * destruct (l !! _) as [x|]; [|reflexivity].
        rewrite list_lookup_fmap, IH.
        destruct (lex_nth ls _); reflexivity.
      * intros x. rewrite length_map. apply lex_product_length.
Qed.

(** Every choice of one element per list is enumerated. *)
Lemma lex_product_complete ls (c : list A) :
  Forall2 (fun x l => x ∈ l) c ls -> c ∈ lex_product ls.
Proof.
  induction 1 as [|x l c ls Hx _ IH]; simpl.
  - apply list_elem_of_here.
  - apply list_elem_of_In, in_flat_map. exists x. split.
    + apply list_elem_of_In, Hx.
    + apply in_map, list_elem_of_In, IH.
Qed.

(** Nothing else is enumerated. *)
Lemma lex_product_sound ls (c : list A) :
  c ∈ lex_product ls -> Forall2 (fun x l => x ∈ l) c ls.
Proof.
  revert c. induction ls as [|l ls IH]; intros c Hc; simpl in Hc.
  - apply list_elem_of_singleton in Hc. subst c. constructor.
  - apply list_elem_of_In, in_flat_map in Hc. destruct Hc as (x & Hx & Hc).
    apply in_map_iff in Hc. destruct Hc as (c' & <- & Hc').
    constructor; [apply list_elem_of_In, Hx|].
    apply IH, list_elem_of_In, Hc'.
Qed.

(** Lists without repetition have a product without repetition. *)
Lemma lex_product_NoDup ls : Forall NoDup ls -> NoDup (lex_product ls).
Proof.
  induction 1 as [|l ls Hl _ IH]; simpl.
  - apply NoDup_singleton.
  - induction Hl as [|x l Hx _ IHl]; simpl; [constructor|].
    apply NoDup_app. split; [|split].
    + apply NoDup_fmap_2; [|exact IH]. intros c c'. congruence.
    + intros c Hc Hc'.
      apply list_elem_of_fmap in Hc as (c1 & -> & _).
      apply list_elem_of_In, in_flat_map in Hc' as (y & Hy & Hc').
      apply in_map_iff in Hc' as (c2 & [= <- _] & _).
      apply Hx, list_elem_of_In, Hy.
    + exact IHl.
Qed.

End LexProductFacts.

Lemma flat_map_map {A B C} (g : A -> B) (f : B -> list C) (l : list A) :
  flat_map f (map g l) = flat_map (fun x => f (g x)) l.
Proof. induction l as [|x l IH]; simpl; [|rewrite IH]; reflexivity. Qed.

Lemma map_flat_map {A B C} (f : A -> list B) (g : B -> C) (l : list A) :
  map g (flat_map f l) = flat_map (fun x => map g (f x)) l.
Proof.
  induction l as [|x l IH]; simpl; [reflexivity|].
  rewrite map_app, IH. reflexivity.
Qed.

Lemma lex_product_map {A B} (f : A -> B) (ls : list (list A)) :
  map (map f) (lex_product ls) = lex_product (map (map f) ls).
Proof.
  induction ls as [|l ls IH]; [reflexivity|].
  simpl. rewrite map_flat_map, flat_map_map, <- IH.
  apply flat_map_ext. intros x. rewrite !map_map. reflexivity.
Qed.

(** ** The generator and the ordered Cartesian product *)

Lemma generateCombinations_eq optionGroups currentIndex currentCombination :
  generateCombinations optionGroups currentIndex currentCombination =
  if Nat.eq_dec currentIndex (length optionGroups)
  then Some [variantOfCombination currentCombination]
  else match optionGroups !! currentIndex with
       | None => None
       | Some currentGroup =>
           forEach_push
             (fun optionValue =>
                generateCombinations optionGroups (currentIndex + 1)
                  (currentCombination ++ [optionOf currentGroup optionValue]))
             (og_values currentGroup) []
       end.
Proof.
  rewrite generateCombinations_equation_1.
  destruct (Nat.eq_dec currentIndex (length optionGroups)); simpl.
  - reflexivity.
  - now destruct (optionGroups !! currentIndex).
Qed.

Lemma forEach_push_Some {A B} (f : A -> option (list B)) (h : A -> list B)
    (xs : list A) (results : list B) :
  (forall x, x ∈ xs -> f x = Some (h x)) ->
  forEach_push f xs results = Some (results ++ flat_map h xs).
Proof.
  unfold forEach_push. revert results.
  induction xs as [|x xs IH]; intros results Hf; simpl.
  - rewrite app_nil_r. reflexivity.
  - rewrite (Hf x) by apply list_elem_of_here.
    rewrite IH by (intros y Hy; apply Hf, list_elem_of_further, Hy).
    rewrite <- app_assoc. reflexivity.
Qed.

(** From any index within the array, the closure returns, and what it returns
    is the ordered product of the remaining groups, each combination prefixed
    by [currentCombination]. *)
Lemma generateCombinations_drop optionGroups :
  forall n currentIndex currentCombination,
    length optionGroups - currentIndex = n ->
    currentIndex <= length optionGroups ->
    generateCombinations optionGroups currentIndex currentCombination =
    Some (map (fun c => variantOfCombination (currentCombination ++ c))
            (lex_product (map groupOptions (drop currentIndex optionGroups)))).
Proof.
  induction n as [|n IH]; intros i comb Hn Hle;
    rewrite generateCombinations_eq;
    destruct (Nat.eq_dec i (length optionGroups)) as [Heq|Hne]; try lia.
  - subst i. rewrite drop_all. simpl. rewrite app_nil_r. reflexivity.
  - destruct (lookup_lt_is_Some_2 optionGroups i) as [g Hg]; [lia|].
    rewrite Hg, (drop_S _ _ _ Hg). cbn [map lex_product].
    change (groupOptions g) with (map (optionOf g) (og_values g)).
    rewrite flat_map_map, map_flat_map.
    rewrite (forEach_push_Some _
      (fun ov => map (fun c => variantOfCombination (comb ++ c))
                   (map (cons (optionOf g ov))
                      (lex_product
                         (map groupOptions (drop (S i) optionGroups)))))).
    + reflexivity.
    + intros ov _. rewrite Nat.add_1_r, (IH (S i)) by lia.
      rewrite map_map. f_equal. apply map_ext. intros c.
      rewrite <- app_assoc. reflexivity.
Qed.

Lemma generateCombinations_0 optionGroups :
  generateCombinations optionGroups 0 [] =
  Some (map variantOfCombination (lex_product (map groupOptions optionGroups))).
Proof.
  rewrite (generateCombinations_drop optionGroups (length optionGroups))
    by lia.
  rewrite drop_0. reflexivity.
Qed.

Lemma length_zero_eqb {A} (l : list A) :
  (length l =? 0) = match l with [] => true | _ => false end.
Proof. destruct l; reflexivity. Qed.

(** The predicate of the source is the validity of the specification. *)
Lemma validGroup_spec group : validGroup group = true <-> isValid group.
Proof.
  unfold validGroup, isValid. destruct group as [name values]. simpl.
  rewrite andb_true_iff, Nat.ltb_lt.
  destruct name; simpl; split; intros [? ?]; split;
    try congruence; try lia.
Qed.

(** The array [validGroups] of the source is the list [validGroups] of the
    specification. *)
Lemma filter_validGroup groups :
  List.filter validGroup groups = validGroups groups.
Proof.
  unfold validGroups. induction groups as [|g groups IH]; [reflexivity|].
  simpl. rewrite filter_cons, IH.
  destruct (validGroup g) eqn:Hv, (decide (isValid g)) as [Hs|Hs];
    try reflexivity.
  - apply validGroup_spec in Hv. contradiction.
  - apply validGroup_spec in Hs. congruence.
Qed.

Lemma Forall_validGroups (P : OptionGroup -> Prop) groups :
  Forall P groups -> Forall P (validGroups groups).
Proof.
  rewrite !Forall_forall. intros HP g Hg.
  apply list_elem_of_filter in Hg as [_ Hg]. apply HP, Hg.
Qed.

Lemma validGroups_none groups :
  Forall (fun group => ~ isValid group) groups -> validGroups groups = [].
Proof.
  unfold validGroups. induction 1 as [|g groups Hg _ IH]; [reflexivity|].
  rewrite filter_cons_False by exact Hg. exact IH.
Qed.

(** [generateVariants] never throws; it returns the default variant when no
    group is valid, and otherwise one variant per combination of the valid
    groups. *)
Lemma generateVariants_eq groups :
  generateVariants groups =
  Some match validGroups groups with
       | [] => [defaultVariant]
       | vgs => map variantOfCombination (lex_product (map groupOptions vgs))
       end.
Proof.
  rewrite <- filter_validGroup.
  unfold generateVariants. rewrite !length_zero_eqb.
  destruct groups as [|g groups]; [reflexivity|].
  destruct (List.filter validGroup (g :: groups)) as [|v vgs];
    [reflexivity|].
  apply generateCombinations_0.
Qed.

Lemma generateVariants_options groups variants :
  generateVariants groups = Some variants ->
  map gv_options variants =
  lex_product (map groupOptions (validGroups groups)).
Proof.
  rewrite generateVariants_eq. intros [= <-].
  destruct (validGroups groups) as [|g vgs]; [reflexivity|].
  rewrite map_map. apply map_id.
Qed.

(** ** Claims about the generator *)

(** C1. The number of variants returned by [generateVariants] is the product
    of the value-list sizes of the valid groups; in particular it is 1 when
    no group is valid. *)
Theorem generateVariants_cardinality (groups : list OptionGroup) :
  exists variants,
    generateVariants groups = Some variants /\
    length variants = fold_right Nat.mul 1 (validSizes groups) /\
    (validGroups groups = [] -> length variants = 1).
Proof.
  rewrite generateVariants_eq. eexists. split; [reflexivity|].
  unfold validSizes. destruct (validGroups groups) as [|g vgs] eqn:Hvgs.
  - split; reflexivity.
  - split; [|discriminate].
    rewrite length_map, lex_product_length. unfold sizes_product.
    rewrite map_map. f_equal. apply map_ext. intros g'.
    unfold groupOptions. apply length_map.
Qed.

Lemma generateVariants_cardinality_witness :
  exists variants,
    generateVariants [namelessGroup; emptyGroup] = Some variants /\
    length variants = 1.
Proof.
  destruct (generateVariants_cardinality [namelessGroup; emptyGroup])
    as (variants & Hgen & _ & Hone).
  exists variants. split; [exact Hgen|]. apply Hone. reflexivity.
Defined.

(** C2. When the group list is empty, or no group has both a non-empty name
    and a non-empty values list, [generateVariants] returns exactly one
    variant, whose id is 'default' and whose values and options are empty. *)
Theorem generateVariants_default (groups : list OptionGroup) :
  groups = [] \/ Forall (fun group => ~ isValid group) groups ->
  exists variant,
    generateVariants groups = Some [variant] /\
    gv_id variant = "default" /\
    gv_values variant = [] /\
    gv_options variant = [].
Proof.
  intros Hnone. exists defaultVariant.
  split; [|repeat split].
  rewrite generateVariants_eq.
  assert (Hvgs : validGroups groups = []).
  { destruct Hnone as [->|Hall]; [reflexivity|].
    apply validGroups_none, Hall. }
  rewrite Hvgs. reflexivity.
Qed.

Lemma generateVariants_default_witness :
  exists variant,
    generateVariants [namelessGroup; emptyGroup] = Some [variant] /\
    gv_id variant = "default" /\
    gv_values variant = [] /\
    gv_options variant = [].
Proof.
  apply generateVariants_default. right. by_evaluation.
Defined.

(** The value strings of the variants are the product of the value strings of
    the valid groups. *)
Lemma generateVariants_values groups variants :
  generateVariants groups = Some variants ->
  map gv_values variants =
  lex_product (map groupValues (validGroups groups)).
Proof.
  intros Hgen. pose proof (generateVariants_options _ _ Hgen) as Hopts.
  assert (Hvals : map gv_values variants =
                  map (map vo_value) (map gv_options variants)).
  { rewrite generateVariants_eq in Hgen. injection Hgen as <-.
    destruct (validGroups groups); [reflexivity|].
    rewrite !map_map. apply map_ext. intros c. reflexivity. }
  rewrite Hvals, Hopts, lex_product_map, map_map. f_equal.
  apply map_ext. intros group. unfold groupOptions, groupValues.
  rewrite map_map. reflexivity.
Qed.

(** C3. [generateVariants] keeps the valid groups in their original order and
    returns the full Cartesian product of their values in lexicographic
    order.  The option lists of the variants are the ordered product of the
    options the valid groups offer (the name of the group with the value
    string and id of one of its values), their value lists are the ordered
    product of the value strings, and the variant at position [p] selects in
    each group the value given by the mixed-radix digit of [p], the first
    valid group carrying the most significant digit. *)
Theorem generateVariants_lexicographic (groups : list OptionGroup) :
  exists variants,
    generateVariants groups = Some variants /\
    map gv_options variants =
      lex_product (map groupOptions (validGroups groups)) /\
    map gv_values variants =
      lex_product (map groupValues (validGroups groups)) /\
    forall p,
      map gv_options variants !! p =
        lex_nth (map groupOptions (validGroups groups)) p /\
      map gv_values variants !! p =
        lex_nth (map groupValues (validGroups groups)) p.
Proof.
  destruct (generateVariants groups) as [variants|] eqn:Hgen.
  - exists variants. split; [reflexivity|].
    pose proof (generateVariants_options _ _ Hgen) as Hopts.
    pose proof (generateVariants_values _ _ Hgen) as Hvals.
    split; [exact Hopts|]. split; [exact Hvals|].
    intros p. rewrite Hopts, Hvals. split; apply lex_product_lookup.
  - rewrite generateVariants_eq in Hgen. discriminate.
Qed.

(** C8. For groups A with values a1, a2 and B with value b1, all valid,
    [generateVariants [A; B]] returns exactly two variants, with ids
    "a1-b1" and "a2-b1" in that order, the values of each being the pair of
    the selected value strings. *)
Theorem generateVariants_two_by_one (nameA nameB : string)
    (a1 a2 b1 : OptionValue) :
  nameA <> "" -> nameB <> "" ->
  exists v1 v2,
    generateVariants
      [mkOptionGroup nameA [a1; a2]; mkOptionGroup nameB [b1]] =
      Some [v1; v2] /\
    gv_id v1 = ov_id a1 +:+ "-" +:+ ov_id b1 /\
    gv_id v2 = ov_id a2 +:+ "-" +:+ ov_id b1 /\
    gv_values v1 = [ov_value a1; ov_value b1] /\
    gv_values v2 = [ov_value a2; ov_value b1].
Proof.
  intros HA HB. rewrite generateVariants_eq, <- filter_validGroup.
  destruct nameA as [|ca nameA]; [congruence|].
  destruct nameB as [|cb nameB]; [congruence|].
  simpl. do 2 eexists. split; [reflexivity|].
  repeat split.
Qed.

Lemma generateVariants_two_by_one_witness :
  exists v1 v2,
    generateVariants
      [mkOptionGroup "A" [mkOptionValue "a1" "a1"; mkOptionValue "a2" "a2"];
       mkOptionGroup "B" [mkOptionValue "b1" "b1"]] =
      Some [v1; v2] /\
    gv_id v1 = "a1-b1" /\
    gv_id v2 = "a2-b1" /\
    gv_values v1 = ["a1"; "b1"] /\
    gv_values v2 = ["a2"; "b1"].
Proof.
  apply (generateVariants_two_by_one "A" "B"
           (mkOptionValue "a1" "a1") (mkOptionValue "a2" "a2")
           (mkOptionValue "b1" "b1"));
    discriminate.
Defined.

(** ** Identifiers: when [join] separates combinations *)

Section JoinFacts.
Implicit Types (s t : string) (l : list string).

Lemma join_cons2 sep s t l :
  join sep (s :: t :: l) = s +:+ sep +:+ join sep (t :: l).
Proof. reflexivity. Qed.

Lemma string_app_empty s : "" +:+ s = s.
Proof. reflexivity. Qed.

Lemma string_app_String c s t : String c s +:+ t = String c (s +:+ t).
Proof. reflexivity. Qed.

(** A dash-free prefix followed by the separator can be read back. *)
Lemma dashFree_prefix_inj s t rest rest' :
  dashFree s -> dashFree t ->
  s +:+ "-" +:+ rest = t +:+ "-" +:+ rest' ->
  s = t /\ rest = rest'.
Proof.
  revert t. induction s as [|c s IH]; intros [|d t] Hs Ht Heq;
    rewrite ?string_app_String, ?string_app_empty in Heq;
    rewrite ?string_app_String, ?string_app_empty in Heq;
    simpl in Hs, Ht.
  - split; congruence.
  - destruct Ht as [Hd _]. congruence.
  - destruct Hs as [Hc _]. congruence.
  - destruct Hs as [_ Hs], Ht as [_ Ht].
    injection Heq as -> Heq.
    destruct (IH t Hs Ht Heq) as [-> ->]. split; reflexivity.
Qed.

(** Two arrays of the same length of dash-free strings with the same join
    are the same array. *)
Lemma join_dash_inj l l' :
  length l = length l' ->
  Forall dashFree l -> Forall dashFree l' ->
  join "-" l = join "-" l' -> l = l'.
Proof.
  revert l'. induction l as [|s l IH]; intros [|t l'] Hlen Hl Hl' Heq;
    try discriminate; [reflexivity|].
  apply Forall_cons in Hl as [Hs Hl]. apply Forall_cons in Hl' as [Ht Hl'].
  destruct l as [|s2 l], l' as [|t2 l']; try discriminate.
  - simpl in Heq. congruence.
  - rewrite !join_cons2 in Heq.
    destruct (dashFree_prefix_inj _ _ _ _ Hs Ht Heq) as [-> Hrest].
    f_equal. apply IH; [simpl in *; lia|assumption..].
Qed.

End JoinFacts.

(** The ids of the variants built from the combinations of valid groups. *)
Lemma map_gv_id_product (vgs : list OptionGroup) :
  map gv_id (map variantOfCombination (lex_product (map groupOptions vgs))) =
  map (join "-")
    (lex_product (map (fun group => map ov_id (og_values group)) vgs)).
Proof.
  rewrite map_map.
  change (fun c => gv_id (variantOfCombination c))
    with (fun c => join "-" (map vo_id c)).
  rewrite <- (map_map (map vo_id) (join "-")), lex_product_map, map_map.
  do 2 f_equal. apply map_ext. intros group.
  unfold groupOptions. rewrite map_map. reflexivity.
Qed.

(** A combination of dash-free ids is an array of dash-free strings. *)
Lemma combination_dashFree (vgs : list OptionGroup) (c : list string) :
  Forall dashFreeIds vgs ->
  Forall2 (fun x l => x ∈ l) c
    (map (fun group => map ov_id (og_values group)) vgs) ->
  Forall dashFree c.
Proof.
  intros Hdash. revert c.
  induction Hdash as [|g vgs Hg _ IH]; intros c Hc; simpl in Hc.
  - apply Forall2_nil_inv_r in Hc as ->. constructor.
  - apply Forall2_cons_inv_r in Hc as (x & c' & Hx & Hc' & ->).
    constructor; [|apply IH, Hc'].
    apply list_elem_of_fmap in Hx as (v & -> & Hv).
    unfold dashFreeIds in Hg. rewrite Forall_forall in Hg. apply Hg, Hv.
Qed.

Lemma product_ids_NoDup (vgs : list OptionGroup) :
  Forall uniqueIds vgs -> Forall dashFreeIds vgs ->
  NoDup (map (join "-")
           (lex_product (map (fun group => map ov_id (og_values group)) vgs))).
Proof.
  intros Huniq Hdash.
  apply NoDup_fmap_2_strong.
  - intros c c' Hc Hc' Hjoin.
    apply lex_product_sound in Hc, Hc'.
    apply join_dash_inj;
      [|eapply combination_dashFree; eassumption..|exact Hjoin].
    apply Forall2_length in Hc, Hc'. congruence.
  - apply lex_product_NoDup. apply Forall_fmap.
    eapply Forall_impl; [exact Huniq|]. intros g Hg. exact Hg.
Qed.

(** ** Claim about the identifiers *)

(** C4, as stated, fails: the ids of [dashedGroups] are unique within each
    group, and the first and the last of its four combinations both get the
    id "a-b-c". *)
Lemma generateVariants_ids_clash :
  Forall uniqueIds dashedGroups /\
  exists variants,
    generateVariants dashedGroups = Some variants /\
    gv_id <$> variants !! 0 = Some "a-b-c" /\
    gv_id <$> variants !! 3 = Some "a-b-c" /\
    ~ NoDup (map gv_id variants).
Proof.
  split; [by_evaluation|].
  eexists. split; [vm_compute; reflexivity|].
  split; [reflexivity|]. split; [reflexivity|].
  simpl. intros Hnd. apply NoDup_cons in Hnd as [Hnotin _].
  apply Hnotin. do 2 apply list_elem_of_further. apply list_elem_of_here.
Qed.

(** C4, amended. When the value ids are unique within each group and none of
    them contains the separator '-', no two variants returned by
    [generateVariants] have the same id. *)
Theorem generateVariants_ids_NoDup (groups : list OptionGroup) :
  Forall uniqueIds groups ->
  Forall dashFreeIds groups ->
  exists variants,
    generateVariants groups = Some variants /\
    NoDup (map gv_id variants).
Proof.
  intros Huniq Hdash. rewrite generateVariants_eq. eexists.
  split; [reflexivity|].
  destruct (validGroups groups) as [|g vgs] eqn:Hvgs.
  - apply NoDup_singleton.
  - rewrite map_gv_id_product, <- Hvgs.
    apply product_ids_NoDup; apply Forall_validGroups; assumption.
Qed.

Lemma generateVariants_ids_NoDup_witness :
  exists variants,
    generateVariants [colorGroup; sizeGroup] = Some variants /\
    NoDup (map gv_id variants).
Proof.
  apply generateVariants_ids_NoDup.
  - by_evaluation.
  - repeat constructor; discriminate.
Defined.

(** ** Reconciliation and emission *)

Section FormRecord.
Implicit Types (variants : list GeneratedVariant)
  (rec prev : gmap string VariantForm) (id : string).

Lemma reconcileStep_lookup rec variant id :
  reconcileStep rec variant !! id =
  match rec !! id with
  | Some formVariant => Some formVariant
  | None =>
      if decide (gv_id variant = id /\ plainId id)
      then Some initialVariantForm else None
  end.
Proof.
  unfold reconcileStep, getProperty, plainId.
  destruct (rec !! gv_id variant) as [own|] eqn:Hown.
  - destruct (rec !! id) eqn:Hid; [reflexivity|].
    rewrite decide_False; [reflexivity|]. intros [<- _]. congruence.
  - destruct (inheritedName (gv_id variant)) eqn:Hinherited.
    + destruct (rec !! id) eqn:Hid; [reflexivity|].
      rewrite decide_False; [reflexivity|]. intros [<- Hplain]. congruence.
    + destruct (decide (gv_id variant = id)) as [<-|Hne].
      * rewrite lookup_insert_eq, Hown.
        rewrite decide_True by (split; [reflexivity|exact Hinherited]).
        reflexivity.
      * rewrite lookup_insert_ne by exact Hne.
        destruct (rec !! id); [reflexivity|].
        rewrite decide_False; [reflexivity|]. intros [Heq _]. contradiction.
Qed.

(** What the reconciled record holds at any key. *)
Lemma reconcile_lookup variants prev id :
  reconcile variants (Some prev) !! id =
  match prev !! id with
  | Some formVariant => Some formVariant
  | None =>
      if decide (id ∈ map gv_id variants /\ plainId id)
      then Some initialVariantForm else None
  end.
Proof.
  unfold reconcile. cbn [orEmpty]. revert prev.
  induction variants as [|variant variants IH]; intros prev;
    cbn [foldl map].
  - destruct (prev !! id); [reflexivity|].
    rewrite decide_False; [reflexivity|].
    intros [Hin _]. apply not_elem_of_nil in Hin. exact Hin.
  - rewrite IH, reconcileStep_lookup.
    destruct (prev !! id) as [formVariant|]; [reflexivity|].
    destruct (decide (gv_id variant = id /\ plainId id)) as [[<- Hplain]|Hno].
    + rewrite decide_True; [reflexivity|].
      split; [apply list_elem_of_here|exact Hplain].
    + destruct (decide (id ∈ map gv_id variants /\ plainId id))
        as [[Hin Hplain]|Hnotin].
      * rewrite decide_True; [reflexivity|].
        split; [apply list_elem_of_further, Hin|exact Hplain].
      * rewrite decide_False; [reflexivity|].
        intros [Hin Hplain]. apply elem_of_cons in Hin as [->|Hin].
        -- apply Hno. split; [reflexivity|exact Hplain].
        -- apply Hnotin. split; [exact Hin|exact Hplain].
Qed.

(** Reconciling an [undefined] record starts from the empty one. *)
Lemma reconcile_undefined variants :
  reconcile variants None = reconcile variants (Some ∅).
Proof. reflexivity. Qed.

(** After reconciliation every generated variant contributes a row. *)
Lemma reconcile_rowOf variants prev variant :
  variant ∈ variants ->
  is_Some (rowOf (reconcile variants (Some prev)) variant).
Proof.
  intros Hv. unfold rowOf. rewrite reconcile_lookup.
  destruct (prev !! gv_id variant); [eexists; reflexivity|].
  destruct (inheritedName (gv_id variant)) eqn:Hinherited.
  - destruct (decide _); eexists; reflexivity.
  - rewrite decide_True; [eexists; reflexivity|].
    split; [|exact Hinherited].
    apply list_elem_of_fmap. exists variant. split; [reflexivity|exact Hv].
Qed.

Lemma watchStep_rowOf rec (activeVariants : list ActiveVariant) variant :
  watchStep rec activeVariants variant =
  match rowOf rec variant with
  | Some row => activeVariants ++ [row]
  | None => activeVariants
  end.
Proof.
  unfold watchStep, getProperty, rowOf.
  destruct (rec !! gv_id variant); [reflexivity|].
  destruct (inheritedName (gv_id variant)); reflexivity.
Qed.

(** The loop of the watch callback, from any contents of
    [activeVariants]. *)
Lemma watch_loop_rows variants rec (activeVariants : list ActiveVariant) :
  foldl (watchStep rec) activeVariants variants =
  activeVariants ++ omap (rowOf rec) variants.
Proof.
  revert activeVariants.
  induction variants as [|variant variants IH]; intros activeVariants.
  - simpl. rewrite app_nil_r. reflexivity.
  - cbn [foldl omap list_omap]. rewrite IH, watchStep_rowOf.
    destruct (rowOf rec variant); [|reflexivity].
    rewrite <- app_assoc. reflexivity.
Qed.

Lemma watchCallback_rows optionGroups variants rec :
  vc_variants (watchCallback optionGroups variants (Some rec)) =
  omap (rowOf rec) variants.
Proof.
  unfold watchCallback. cbn [vc_variants orEmpty].
  apply watch_loop_rows.
Qed.

(** The payload only depends on the entries of the generated ids. *)
Lemma watchCallback_ext optionGroups variants rec rec' :
  (forall variant, variant ∈ variants ->
                   rec !! gv_id variant = rec' !! gv_id variant) ->
  watchCallback optionGroups variants (Some rec) =
  watchCallback optionGroups variants (Some rec').
Proof.
  intros Hsame.
  assert (Hrows : vc_variants (watchCallback optionGroups variants (Some rec))
                  = vc_variants
                      (watchCallback optionGroups variants (Some rec'))).
  { rewrite !watchCallback_rows. clear optionGroups.
    induction variants as [|variant variants IH]; [reflexivity|].
    cbn [omap list_omap]. rewrite IH.
    - unfold rowOf. rewrite Hsame by apply list_elem_of_here. reflexivity.
    - intros v Hv. apply Hsame, list_elem_of_further, Hv. }
  unfold watchCallback in *. cbn [vc_variants] in Hrows.
  rewrite Hrows. reflexivity.
Qed.


(** When every generated variant contributes a row, the rows are those of
    the variants, one each. *)
Lemma rows_all variants rec :
  (forall variant, variant ∈ variants -> is_Some (rowOf rec variant)) ->
  Forall2 (fun variant row => av_options row = gv_options variant)
    variants (omap (rowOf rec) variants).
Proof.
  induction variants as [|variant variants IH]; intros Hall; [constructor|].
  cbn [omap list_omap].
  destruct (Hall variant) as [row Hrow]; [apply list_elem_of_here|].
  rewrite Hrow. constructor.
  - unfold rowOf in Hrow. destruct (rec !! gv_id variant);
      [|destruct (inheritedName (gv_id variant)); [|discriminate]];
      injection Hrow as <-; reflexivity.
  - apply IH. intros v Hv. apply Hall, list_elem_of_further, Hv.
Qed.

End FormRecord.

(** ** Claims about reconciliation and emission *)







(** C7. Reconciliation leaves an entry whose id is no longer generated as it
    was (neither removed nor modified), and the payload has no row for it:
    after reconciliation the rows are those of the generated variants, one
    each, and the payload is the same as with the stale entry deleted. *)
Theorem stale_entry_frame (optionGroups : list OptionGroup)
    (variants : list GeneratedVariant) (prev : gmap string VariantForm)
    (id : string) :
  id ∉ map gv_id variants ->
  let rec := reconcile variants (Some prev) in
  rec !! id = prev !! id /\
  Forall2 (fun variant row => av_options row = gv_options variant)
    variants (vc_variants (watchCallback optionGroups variants (Some rec))) /\
  watchCallback optionGroups variants (Some (delete id rec)) =
  watchCallback optionGroups variants (Some rec).
Proof.
  intros Hstale rec. split; [|split].
  - unfold rec. rewrite reconcile_lookup.
    destruct (prev !! id); [reflexivity|].
    rewrite decide_False; [reflexivity|]. intros [Hin _]. contradiction.
  - rewrite watchCallback_rows. apply rows_all.
    intros variant Hv. apply reconcile_rowOf, Hv.
  - apply watchCallback_ext. intros variant Hv.
    apply lookup_delete_ne. intros ->. apply Hstale.
    apply list_elem_of_fmap. exists variant. split; [reflexivity|exact Hv].
Qed.

Lemma stale_entry_frame_witness :
  let variants := [variantOfCombination [mkVariantOption "A" "x" "a1"]] in
  let prev : gmap string VariantForm :=
    {["old" := mkVariantForm (Some false) (Some "OLD") (Some "1") (Some "2")]} in
  let rec := reconcile variants (Some prev) in
  rec !! "old" = prev !! "old" /\
  Forall2 (fun variant row => av_options row = gv_options variant)
    variants (vc_variants (watchCallback [] variants (Some rec))) /\
  watchCallback [] variants (Some (delete "old" rec)) =
  watchCallback [] variants (Some rec).
Proof.
  intros variants prev.
  apply (stale_entry_frame [] variants prev "old").
  by_evaluation.
Defined.

(** C10. Every row of the emitted payload comes from a generated variant,
    whose options it carries, and has its four fields defined: they are
    those of the entry of the variant's id with the missing ones defaulted,
    [enabled] to [true] and [sku], [price] and [stock] to the empty string;
    a row whose id has no entry (it then names an inherited member) has all
    four at their defaults. *)
Theorem watchCallback_defaults (optionGroups : list OptionGroup)
    (variants : list GeneratedVariant) (rec : gmap string VariantForm)
    (row : ActiveVariant) :
  row ∈ vc_variants (watchCallback optionGroups variants (Some rec)) ->
  exists variant,
    variant ∈ variants /\
    av_options row = gv_options variant /\
    match rec !! gv_id variant with
    | Some formVariant =>
        av_enabled row =
          match vf_enabled formVariant with Some b => b | None => true end /\
        av_sku row =
          match vf_sku formVariant with Some s => s | None => "" end /\
        av_price row =
          match vf_price formVariant with Some s => s | None => "" end /\
        av_stock row =
          match vf_stock formVariant with Some s => s | None => "" end
    | None =>
        inheritedName (gv_id variant) = true /\
        av_enabled row = true /\ av_sku row = "" /\
        av_price row = "" /\ av_stock row = ""
    end.
Proof.
  rewrite watchCallback_rows. intros Hrow.
  apply list_elem_of_omap in Hrow as (variant & Hv & Hrow).
  exists variant. split; [exact Hv|].
  unfold rowOf in Hrow.
  destruct (rec !! gv_id variant) as [formVariant|].
  - injection Hrow as <-. split; [reflexivity|].
    destruct formVariant as [[b|] [sku|] [price|] [stock|]]; repeat split.
  - destruct (inheritedName (gv_id variant)); [|discriminate].
    injection Hrow as <-. repeat split.
Qed.

Lemma watchCallback_defaults_witness :
  let variants := [variantOfCombination [mkVariantOption "A" "x" "a1"]] in
  let rec : gmap string VariantForm :=
    {["a1" := mkVariantForm None (Some "X") None None]} in
  let row := mkActiveVariant true "X" "" "" [mkVariantOption "A" "x" "a1"] in
  row ∈ vc_variants (watchCallback [] variants (Some rec)) /\
  exists variant,
    variant ∈ variants /\
    av_options row = gv_options variant /\
    match rec !! gv_id variant with
    | Some formVariant =>
        av_enabled row =
          match vf_enabled formVariant with Some b => b | None => true end /\
        av_sku row =
          match vf_sku formVariant with Some s => s | None => "" end /\
        av_price row =
          match vf_price formVariant with Some s => s | None => "" end /\
        av_stock row =
          match vf_stock formVariant with Some s => s | None => "" end
    | None =>
        inheritedName (gv_id variant) = true /\
        av_enabled row = true /\ av_sku row = "" /\
        av_price row = "" /\ av_stock row = ""
    end.
Proof.
  intros variants rec row.
  assert (Hrow : row ∈ vc_variants (watchCallback [] variants (Some rec))).
  { vm_compute. apply list_elem_of_here. }
  split; [exact Hrow|].
  apply (watchCallback_defaults [] variants rec row Hrow).
Defined.

(** ** The scenario of the specification *)

(** One group Color with Red and Blue: the generator returns the ids "r" and
    "b"; after reconciliation and an edit of the sku of "r", the payload has
    the two rows, in that order. *)
Example color_scenario :
  exists variants,
    generateVariants [colorGroup] = Some variants /\
    map gv_id variants = ["r"; "b"] /\
    map gv_name variants = ["Red"; "Blue"] /\
    let rec := reconcile variants (Some ∅) in
    let edited :=
      <["r" := mkVariantForm (Some true) (Some "RED-1") (Some "") (Some "")]>
        rec in
    vc_variants (watchCallback [colorGroup] variants (Some edited)) =
    [ mkActiveVariant true "RED-1" "" "" [mkVariantOption "Color" "Red" "r"];
      mkActiveVariant true "" "" "" [mkVariantOption "Color" "Blue" "b"] ].
Proof.
  eexists. split; [vm_compute; reflexivity|].
  repeat split.
Qed.

(** * Further properties of the code *)

(** ** Sizes of products *)

Section SizesFacts.
Context {A : Type}.
Implicit Types (ls : list (list A)).

Lemma sizes_product_pos ls :
  Forall (fun l => l <> []) ls -> 0 < sizes_product ls.
Proof.
  induction 1 as [|l ls Hl _ IH]; [apply Nat.lt_0_1|].
  rewrite sizes_product_cons. destruct l; [congruence|]. simpl. lia.
Qed.

Lemma sizes_product_zero ls :
  sizes_product ls = 0 <-> Exists (fun l => l = []) ls.
Proof.
  induction ls as [|l ls IH].
  - split; [discriminate|]. intros H. inversion H.
  - rewrite sizes_product_cons, Exists_cons, <- IH.
    rewrite Nat.eq_mul_0, length_zero_iff_nil. reflexivity.
Qed.

Lemma sizes_product_one ls :
  sizes_product ls = 1 <-> Forall (fun l => length l = 1) ls.
Proof.
  induction ls as [|l ls IH].
  - split; [constructor|reflexivity].
  - rewrite sizes_product_cons, Forall_cons, <- IH.
    rewrite Nat.eq_mul_1. reflexivity.
Qed.

Lemma lex_product_elem ls (c : list A) :
  c ∈ lex_product ls <-> Forall2 (fun x l => x ∈ l) c ls.
Proof. split; [apply lex_product_sound|apply lex_product_complete]. Qed.

End SizesFacts.

Lemma validGroups_valid groups : Forall isValid (validGroups groups).
Proof.
  apply Forall_forall. intros g Hg.
  apply list_elem_of_filter in Hg as [Hg _]. exact Hg.
Qed.

Lemma groupOptions_nonempty groups :
  Forall (fun l => l <> []) (map groupOptions (validGroups groups)).
Proof.
  apply Forall_fmap. eapply Forall_impl; [apply validGroups_valid|].
  intros g [_ Hlen]. unfold groupOptions. simpl.
  destruct (og_values g); [simpl in Hlen; lia|discriminate].
Qed.

(** The variants of a non-empty list of valid groups. *)
Lemma generateVariants_product groups :
  generateVariants groups =
  Some match List.filter validGroup groups with
       | [] => [defaultVariant]
       | vgs => map variantOfCombination (lex_product (map groupOptions vgs))
       end.
Proof. rewrite filter_validGroup. apply generateVariants_eq. Qed.

(** ** The generator: what every result satisfies *)

(** X1. Whatever the groups, [generateVariants] returns at least one
    variant, so the guard [variants.length > 0] of the table of variants is
    always passed. *)
Theorem generateVariants_nonempty (groups : list OptionGroup) :
  exists variants,
    generateVariants groups = Some variants /\
    variants <> [] /\
    showsVariantTable variants = true.
Proof.
  rewrite generateVariants_eq. eexists. split; [reflexivity|].
  assert (Hlen : 0 < length
            match validGroups groups with
            | [] => [defaultVariant]
            | vgs => map variantOfCombination
                       (lex_product (map groupOptions vgs))
            end).
  { pose proof (groupOptions_nonempty groups) as Hne.
    destruct (validGroups groups) as [|g vgs]; [simpl; lia|].
    rewrite length_map, lex_product_length.
    apply sizes_product_pos, Hne. }
  split.
  - intros Hnil. rewrite Hnil in Hlen. simpl in Hlen. lia.
  - unfold showsVariantTable. apply Nat.ltb_lt, Hlen.
Qed.

(** X2. A group that fails the filter (no name, or no value) does not change
    the result: the variants are the same with the group removed. *)
Theorem generateVariants_skips_invalid (before after : list OptionGroup)
    (group : OptionGroup) :
  validGroup group = false ->
  generateVariants (before ++ group :: after) =
  generateVariants (before ++ after).
Proof.
  intros Hinvalid. rewrite !generateVariants_product.
  rewrite !List.filter_app. simpl. rewrite Hinvalid. reflexivity.
Qed.

Lemma generateVariants_skips_invalid_witness :
  generateVariants [colorGroup; namelessGroup; sizeGroup] =
  generateVariants [colorGroup; sizeGroup].
Proof.
  apply (generateVariants_skips_invalid [colorGroup] [sizeGroup]
           namelessGroup).
  reflexivity.
Defined.

(** X3. Every variant returned by [generateVariants] is enabled with empty
    sku, price and stock; its values are the value strings of its options
    and its name is their join with a space. *)
Theorem generateVariants_fields (groups : list OptionGroup) :
  exists variants,
    generateVariants groups = Some variants /\
    Forall
      (fun variant =>
         gv_enabled variant = true /\
         gv_sku variant = "" /\ gv_price variant = "" /\
         gv_stock variant = "" /\
         gv_values variant = map vo_value (gv_options variant) /\
         gv_name variant = join " " (gv_values variant))
      variants.
Proof.
  rewrite generateVariants_eq. eexists. split; [reflexivity|].
  destruct (validGroups groups) as [|g vgs].
  - repeat constructor.
  - apply Forall_fmap, Forall_true. intros c. repeat split.
Qed.

(** X4. Every variant has exactly one option for each group that passes the
    filter, in the order of the groups, named after its group. *)
Theorem generateVariants_option_names (groups : list OptionGroup) :
  exists variants,
    generateVariants groups = Some variants /\
    Forall
      (fun variant =>
         map vo_name (gv_options variant) =
         map og_name (List.filter validGroup groups))
      variants.
Proof.
  rewrite generateVariants_product. eexists. split; [reflexivity|].
  destruct (List.filter validGroup groups) as [|g vgs] eqn:Hvgs.
  - repeat constructor.
  - rewrite <- Hvgs. clear Hvgs. apply Forall_fmap, Forall_forall.
    intros c Hc. simpl. apply lex_product_sound in Hc.
    generalize dependent c.
    induction (List.filter validGroup groups) as [|g' gs IH]; intros c Hc;
      simpl in Hc.
    + apply Forall2_nil_inv_r in Hc as ->. reflexivity.
    + apply Forall2_cons_inv_r in Hc as (o & c' & Ho & Hc' & ->).
      simpl. rewrite (IH c' Hc').
      unfold groupOptions in Ho.
      apply list_elem_of_fmap in Ho as (ov & -> & _). reflexivity.
Qed.

(** X5. As soon as one group passes the filter, the id of every variant is
    the join with '-' of the ids of its options. *)
Theorem generateVariants_ids_joined (groups : list OptionGroup) :
  List.filter validGroup groups <> [] ->
  exists variants,
    generateVariants groups = Some variants /\
    Forall
      (fun variant =>
         gv_id variant = join "-" (map vo_id (gv_options variant)))
      variants.
Proof.
  intros Hsome. rewrite generateVariants_product. eexists.
  split; [reflexivity|].
  destruct (List.filter validGroup groups) as [|g vgs]; [congruence|].
  apply Forall_fmap, Forall_true. intros c. reflexivity.
Qed.

Lemma generateVariants_ids_joined_witness :
  exists variants,
    generateVariants [colorGroup; sizeGroup] = Some variants /\
    Forall
      (fun variant =>
         gv_id variant = join "-" (map vo_id (gv_options variant)))
      variants.
Proof.
  apply generateVariants_ids_joined. discriminate.
Defined.

(** X6. The option lists of the variants are exactly the selections of one
    value from each group that passes the filter: none is omitted and
    nothing else is produced. *)
Theorem generateVariants_selections (groups : list OptionGroup) :
  exists variants,
    generateVariants groups = Some variants /\
    forall combination,
      combination ∈ map gv_options variants <->
      Forall2
        (fun option group =>
           exists optionValue,
             optionValue ∈ og_values group /\
             option = {| vo_name := og_name group;
                         vo_value := ov_value optionValue;
                         vo_id := ov_id optionValue |})
        combination (List.filter validGroup groups).
Proof.
  destruct (generateVariants groups) as [variants|] eqn:Hgen;
    [|rewrite generateVariants_eq in Hgen; discriminate].
  exists variants. split; [reflexivity|]. intros c.
  rewrite (generateVariants_options _ _ Hgen), <- filter_validGroup.
  rewrite lex_product_elem, Forall2_fmap_r.
  split; intros Hsel; (eapply Forall2_impl; [exact Hsel|]); intros o g;
    unfold compose, groupOptions; rewrite list_elem_of_fmap.
  - intros (ov & -> & Hov). exists ov. split; [exact Hov|reflexivity].
  - intros (ov & Hov & ->). exists ov. split; [reflexivity|exact Hov].
Qed.

(** ** The closure [generateCombinations] on its own *)

(** X7. Called with an index within the array and any combination built so
    far, the closure returns one variant for each selection from the groups
    at and after the index, in lexicographic order: its options are the
    combination built so far followed by the selection (the name of each
    group with the value string and id of the selected value), its id, name
    and values are derived from these options, and it is enabled with empty
    sku, price and stock. *)
Theorem generateCombinations_in_range (optionGroups : list OptionGroup)
    (currentIndex : nat) (currentCombination : list VariantOption) :
  currentIndex <= length optionGroups ->
  exists variants,
    generateCombinations optionGroups currentIndex currentCombination =
      Some variants /\
    map gv_options variants =
      map (app currentCombination)
        (lex_product (map groupOptions (drop currentIndex optionGroups))) /\
    Forall
      (fun variant =>
         gv_id variant = join "-" (map vo_id (gv_options variant)) /\
         gv_name variant = join " " (map vo_value (gv_options variant)) /\
         gv_values variant = map vo_value (gv_options variant) /\
         gv_enabled variant = true /\ gv_sku variant = "" /\
         gv_price variant = "" /\ gv_stock variant = "")
      variants.
Proof.
  intros Hle.
  rewrite (generateCombinations_drop optionGroups
             (length optionGroups - currentIndex))
    by (reflexivity || exact Hle).
  eexists. split; [reflexivity|]. split.
  - rewrite map_map. apply map_ext. intros rest. reflexivity.
  - apply Forall_fmap, Forall_true. intros rest. repeat split.
Qed.

Lemma generateCombinations_in_range_witness :
  exists variants,
    generateCombinations [colorGroup; sizeGroup] 1
      [mkVariantOption "Color" "Red" "r"] = Some variants /\
    map gv_options variants =
      [[mkVariantOption "Color" "Red" "r";
        mkVariantOption "Size" "Small" "s"]] /\
    Forall
      (fun variant =>
         gv_id variant = join "-" (map vo_id (gv_options variant)) /\
         gv_name variant = join " " (map vo_value (gv_options variant)) /\
         gv_values variant = map vo_value (gv_options variant) /\
         gv_enabled variant = true /\ gv_sku variant = "" /\
         gv_price variant = "" /\ gv_stock variant = "")
      variants.
Proof.
  apply (generateCombinations_in_range [colorGroup; sizeGroup] 1
           [mkVariantOption "Color" "Red" "r"]).
  simpl. lia.
Defined.

(** X8. Called with an index past the end of the array, the closure throws:
    [optionGroups[currentIndex]] is [undefined] and its [values] are read. *)
Theorem generateCombinations_out_of_range (optionGroups : list OptionGroup)
    (currentIndex : nat) (currentCombination : list VariantOption) :
  length optionGroups < currentIndex ->
  generateCombinations optionGroups currentIndex currentCombination = None.
Proof.
  intros Hgt. rewrite generateCombinations_eq.
  destruct (Nat.eq_dec currentIndex (length optionGroups)); [lia|].
  rewrite lookup_ge_None_2 by lia. reflexivity.
Qed.

Lemma generateCombinations_out_of_range_witness :
  generateCombinations [colorGroup; sizeGroup] 3 [] = None.
Proof.
  apply (generateCombinations_out_of_range [colorGroup; sizeGroup] 3 []).
  simpl. lia.
Defined.

(** X9. On groups that were not filtered, the closure returns the empty
    array exactly when some group has no value: one empty group removes
    every combination. *)
Theorem generateCombinations_empty_group (optionGroups : list OptionGroup) :
  generateCombinations optionGroups 0 [] = Some [] <->
  exists group, group ∈ optionGroups /\ og_values group = [].
Proof.
  rewrite generateCombinations_0.
  assert (Hzero : sizes_product (map groupOptions optionGroups) = 0 <->
                  exists group, group ∈ optionGroups /\ og_values group = []).
  { rewrite sizes_product_zero, Exists_fmap, Exists_exists.
    split; intros (g & Hg & Hnil); exists g; (split; [exact Hg|]).
    - unfold groupOptions in Hnil. simpl in Hnil.
      apply fmap_nil_inv in Hnil. exact Hnil.
    - unfold groupOptions. simpl. rewrite Hnil. reflexivity. }
  rewrite <- Hzero, <- lex_product_length. split.
  - intros [= Hnil]. apply fmap_nil_inv in Hnil. rewrite Hnil. reflexivity.
  - intros Hlen. apply length_zero_iff_nil in Hlen. rewrite Hlen.
    reflexivity.
Qed.

(** ** What the render reads off the generator *)

(** X10. [isSingleVariant] holds of the generated list exactly when every
    group that passes the filter has a single value; in particular it holds
    without any such group, and also for variants that are not the default
    one. *)
Theorem isSingleVariant_iff (groups : list OptionGroup) :
  exists variants,
    generateVariants groups = Some variants /\
    (isSingleVariant variants = true <->
     Forall (fun group => length (og_values group) = 1)
       (List.filter validGroup groups)).
Proof.
  rewrite generateVariants_product. eexists. split; [reflexivity|].
  unfold isSingleVariant. rewrite Nat.eqb_eq.
  destruct (List.filter validGroup groups) as [|g vgs] eqn:Hvgs.
  - split; [constructor|reflexivity].
  - rewrite <- Hvgs. clear Hvgs.
    rewrite length_map, lex_product_length, sizes_product_one, Forall_fmap.
    apply Forall_iff. intros g'. unfold compose, groupOptions.
    rewrite length_map. reflexivity.
Qed.

(** ** Identifiers across inputs *)

(** The ids of a combination of options are a selection of value ids. *)
Lemma combination_ids (vgs : list OptionGroup) (c : list VariantOption) :
  c ∈ lex_product (map groupOptions vgs) ->
  Forall2 (fun x l => x ∈ l) (map vo_id c)
    (map (fun group => map ov_id (og_values group)) vgs).
Proof.
  intros Hc. apply lex_product_sound in Hc.
  rewrite Forall2_fmap_r in Hc. rewrite Forall2_fmap.
  eapply Forall2_impl; [exact Hc|]. intros o g. unfold compose, groupOptions.
  rewrite !list_elem_of_fmap. intros (ov & -> & Hov).
  exists ov. split; [reflexivity|exact Hov].
Qed.

(** X11. When no value id contains '-', the id of a variant determines the
    value ids it was built from: two returned variants with the same id have
    the same ids, option by option. *)
Theorem generateVariants_id_determines_ids (groups : list OptionGroup) :
  Forall dashFreeIds groups ->
  exists variants,
    generateVariants groups = Some variants /\
    forall v1 v2,
      v1 ∈ variants -> v2 ∈ variants -> gv_id v1 = gv_id v2 ->
      map vo_id (gv_options v1) = map vo_id (gv_options v2).
Proof.
  intros Hdash. rewrite generateVariants_eq. eexists.
  split; [reflexivity|].
  pose proof (Forall_validGroups _ _ Hdash) as Hvalid.
  destruct (validGroups groups) as [|g vgs] eqn:Hvgs.
  - intros v1 v2 H1 H2 _.
    apply list_elem_of_singleton in H1, H2. subst. reflexivity.
  - rewrite <- Hvgs in *. clear Hvgs. intros v1 v2 H1 H2 Hid.
    apply list_elem_of_fmap in H1 as (c1 & -> & H1).
    apply list_elem_of_fmap in H2 as (c2 & -> & H2).
    simpl in *. apply combination_ids in H1, H2.
    apply join_dash_inj;
      [|eapply combination_dashFree; eassumption..|exact Hid].
    apply Forall2_length in H1, H2. congruence.
Qed.

Lemma generateVariants_id_determines_ids_witness :
  exists variants,
    generateVariants [colorGroup; sizeGroup] = Some variants /\
    forall v1 v2,
      v1 ∈ variants -> v2 ∈ variants -> gv_id v1 = gv_id v2 ->
      map vo_id (gv_options v1) = map vo_id (gv_options v2).
Proof.
  apply generateVariants_id_determines_ids.
  repeat constructor; discriminate.
Defined.

(** X12. The ids of the variants only depend on the value ids of the groups
    that pass the filter: group names, value strings and filtered-out groups
    can change without changing any id. *)
Theorem generateVariants_ids_by_value_ids (groups groups' : list OptionGroup) :
  map groupIds (List.filter validGroup groups) =
  map groupIds (List.filter validGroup groups') ->
  exists variants variants',
    generateVariants groups = Some variants /\
    generateVariants groups' = Some variants' /\
    map gv_id variants = map gv_id variants'.
Proof.
  intros Hids. rewrite !generateVariants_product. do 2 eexists.
  split; [reflexivity|]. split; [reflexivity|].
  destruct (List.filter validGroup groups) as [|g vgs] eqn:Hvgs,
           (List.filter validGroup groups') as [|g' vgs'] eqn:Hvgs';
    try discriminate; [reflexivity|].
  rewrite !map_gv_id_product.
  change (fun group => map ov_id (og_values group)) with groupIds.
  rewrite Hids. reflexivity.
Qed.

Lemma generateVariants_ids_by_value_ids_witness :
  exists variants variants',
    generateVariants [colorGroup] = Some variants /\
    generateVariants
      [emptyGroup;
       mkOptionGroup "Couleur"
         [mkOptionValue "Rouge" "r"; mkOptionValue "Bleu" "b"]] =
      Some variants' /\
    map gv_id variants = map gv_id variants'.
Proof.
  apply generateVariants_ids_by_value_ids. reflexivity.
Defined.

(** X13. Adding a value at the end of a group that passes the filter keeps
    every variant that was generated before: the new list contains each of
    them, unchanged. *)
Theorem generateVariants_addValue_keeps (before after : list OptionGroup)
    (group : OptionGroup) (optionValue : OptionValue) :
  validGroup group = true ->
  exists variants variants',
    generateVariants (before ++ group :: after) = Some variants /\
    generateVariants (before ++ addValue group optionValue :: after) =
      Some variants' /\
    forall variant, variant ∈ variants -> variant ∈ variants'.
Proof.
  intros Hvalid.
  assert (Hvalid' : validGroup (addValue group optionValue) = true).
  { unfold validGroup in *. simpl. rewrite length_app. simpl.
    apply andb_true_iff in Hvalid as [-> _]. simpl. apply Nat.ltb_lt. lia. }
  rewrite !generateVariants_product, !List.filter_app.
  cbn [List.filter]. rewrite Hvalid, Hvalid'. do 2 eexists.
  split; [reflexivity|]. split; [reflexivity|].
  intros v.
  destruct (List.filter validGroup before ++
            group :: List.filter validGroup after) as [|o l] eqn:HL;
    [apply app_eq_nil in HL as [_ HL]; discriminate|].
  destruct (List.filter validGroup before ++
            addValue group optionValue :: List.filter validGroup after)
    as [|o' l'] eqn:HL';
    [apply app_eq_nil in HL' as [_ HL']; discriminate|].
  change (v ∈ map variantOfCombination
                (lex_product (map groupOptions (o :: l))) ->
          v ∈ map variantOfCombination
                (lex_product (map groupOptions (o' :: l')))).
  rewrite <- HL, <- HL'. clear HL HL' o l o' l'.
  intros Hv. apply list_elem_of_fmap in Hv as (c & -> & Hc).
  apply list_elem_of_fmap. exists c. split; [reflexivity|]. revert Hc.
  rewrite !lex_product_elem, !fmap_app, !fmap_cons.
  intros Hc. apply Forall2_app_inv_r in Hc as (c1 & c2 & H1 & H2 & ->).
  apply Forall2_cons_inv_r in H2 as (o & c3 & Ho & H3 & ->).
  apply Forall2_app; [exact H1|]. constructor; [|exact H3].
  unfold groupOptions, addValue in *. simpl.
  rewrite fmap_app. apply elem_of_app. left.
  apply list_elem_of_fmap in Ho as (ov & -> & Hov).
  apply list_elem_of_fmap. exists ov. split; [reflexivity|exact Hov].
Qed.

Lemma generateVariants_addValue_keeps_witness :
  exists variants variants',
    generateVariants [colorGroup; sizeGroup] = Some variants /\
    generateVariants
      [addValue colorGroup (mkOptionValue "Green" "g"); sizeGroup] =
      Some variants' /\
    forall variant, variant ∈ variants -> variant ∈ variants'.
Proof.
  apply (generateVariants_addValue_keeps [] [sizeGroup] colorGroup
           (mkOptionValue "Green" "g")).
  reflexivity.
Defined.

(** ** Reconciliation: the record as a whole *)

Lemma reconcile_option variants
    (getValues_variants : option (gmap string VariantForm)) :
  reconcile variants getValues_variants =
  reconcile variants (Some (orEmpty getValues_variants)).
Proof. destruct getValues_variants; reflexivity. Qed.

(** X14. Reconciling again with the same generated list changes nothing: the
    record set by the effect is a fixed point of the effect. *)
Theorem reconcile_idempotent (variants : list GeneratedVariant)
    (getValues_variants : option (gmap string VariantForm)) :
  reconcile variants (Some (reconcile variants getValues_variants)) =
  reconcile variants getValues_variants.
Proof.
  rewrite (reconcile_option variants getValues_variants).
  apply map_eq. intros id. rewrite !reconcile_lookup.
  destruct (orEmpty getValues_variants !! id); [reflexivity|].
  destruct (decide (id ∈ map gv_id variants /\ plainId id)); reflexivity.
Qed.

(** X15. The keys of the reconciled record are the keys it had before
    together with the generated ids that do not name a member of
    [Object.prototype]: no key is dropped and no other key is added. *)
Theorem reconcile_dom (variants : list GeneratedVariant)
    (prev : gmap string VariantForm) :
  dom (reconcile variants (Some prev)) =@{gset string}
  dom prev ∪
  list_to_set (filter (fun id => inheritedName id = false)
                 (map gv_id variants)).
Proof.
  apply set_eq. intros id.
  rewrite elem_of_union, !elem_of_dom, elem_of_list_to_set,
    list_elem_of_filter, reconcile_lookup.
  destruct (prev !! id) as [formVariant|].
  - split; [intros _; left|intros _]; eexists; reflexivity.
  - destruct (decide (id ∈ map gv_id variants /\ plainId id))
      as [[Hin Hplain]|Hnotin].
    + split; [intros _; right; split; assumption|].
      intros _; eexists; reflexivity.
    + split; [intros [? ?]; discriminate|].
      intros [[? ?]|[Hplain Hin]]; [discriminate|].
      exfalso. apply Hnotin. split; assumption.
Qed.

(** X16. The reconciled record only depends on which ids are generated, not
    on their order nor on how often each occurs. *)
Theorem reconcile_same_ids (variants variants' : list GeneratedVariant)
    (getValues_variants : option (gmap string VariantForm)) :
  (forall id, id ∈ map gv_id variants <-> id ∈ map gv_id variants') ->
  reconcile variants getValues_variants =
  reconcile variants' getValues_variants.
Proof.
  intros Hids.
  rewrite (reconcile_option variants), (reconcile_option variants').
  apply map_eq. intros id. rewrite !reconcile_lookup.
  destruct (orEmpty getValues_variants !! id); [reflexivity|].
  destruct (decide (id ∈ map gv_id variants /\ plainId id))
    as [[Hin Hplain]|Hnotin].
  - rewrite decide_True; [reflexivity|].
    split; [apply Hids, Hin|exact Hplain].
  - rewrite decide_False; [reflexivity|].
    intros [Hin Hplain]. apply Hnotin. split; [apply Hids, Hin|exact Hplain].
Qed.

Lemma reconcile_same_ids_witness :
  reconcile colorVariants (Some editedRecord) =
  reconcile colorVariantsShuffled (Some editedRecord).
Proof.
  apply reconcile_same_ids. intros id. simpl.
  rewrite !elem_of_cons, !elem_of_nil. tauto.
Defined.

(** X17. Reconciling a record that is still [undefined] gives the record
    with the initial object at each generated id that does not name a member
    of [Object.prototype], and nothing else: a generated id such as
    "toString" gets no entry. *)
Theorem reconcile_fresh (variants : list GeneratedVariant) (id : string) :
  reconcile variants None !! id =
  if decide (id ∈ map gv_id variants /\ inheritedName id = false)
  then Some {| vf_enabled := Some true; vf_sku := Some "";
               vf_price := Some ""; vf_stock := Some "" |}
  else None.
Proof.
  rewrite reconcile_option, reconcile_lookup. cbn [orEmpty].
  rewrite lookup_empty. reflexivity.
Qed.

(** ** Reconciliation followed by emission *)

Lemma rows_defaulted (rec : gmap string VariantForm)
    (variants : list GeneratedVariant) :
  (forall variant, variant ∈ variants ->
                   rowOf rec variant = Some (defaultedRow variant)) ->
  omap (rowOf rec) variants = map defaultedRow variants.
Proof.
  induction variants as [|variant variants IH]; intros Hall; [reflexivity|].
  cbn [omap list_omap map].
  rewrite Hall by apply list_elem_of_here.
  rewrite IH; [reflexivity|].
  intros v Hv. apply Hall, list_elem_of_further, Hv.
Qed.

(** The length of what [generateVariants] returns. *)
Lemma generateVariants_length groups variants :
  generateVariants groups = Some variants ->
  length variants =
  fold_right Nat.mul 1
    (map (fun group => length (og_values group))
       (List.filter validGroup groups)).
Proof.
  rewrite generateVariants_product.
  destruct (List.filter validGroup groups) as [|g vgs]; intros [= <-];
    [reflexivity|].
  change (length (map variantOfCombination
                    (lex_product (map groupOptions (g :: vgs)))) =
          fold_right Nat.mul 1
            (map (fun group => length (og_values group)) (g :: vgs))).
  rewrite length_map, lex_product_length. unfold sizes_product.
  rewrite map_map. f_equal. apply map_ext. intros g'.
  unfold groupOptions. apply length_map.
Qed.

(** X18. On a form that was never filled, reconciliation followed by the
    watch callback emits one row for each generated variant, in order, each
    enabled with empty sku, price and stock and the options of its
    variant. *)
Theorem fresh_payload (optionGroups : list OptionGroup)
    (variants : list GeneratedVariant) :
  watchCallback optionGroups variants (Some (reconcile variants None)) =
  {| vc_optionGroups := optionGroups;
     vc_variants :=
       map (fun variant =>
              {| av_enabled := true; av_sku := ""; av_price := "";
                 av_stock := ""; av_options := gv_options variant |})
         variants |}.
Proof.
  unfold watchCallback. cbn [orEmpty]. f_equal.
  rewrite watch_loop_rows. cbn [app].
  rewrite rows_defaulted; [reflexivity|].
  intros variant Hv. unfold rowOf.
  rewrite reconcile_option, reconcile_lookup.
  cbn [orEmpty]. rewrite lookup_empty.
  destruct (inheritedName (gv_id variant)) eqn:Hinherited.
  - rewrite decide_False; [reflexivity|].
    intros [_ Hplain]. unfold plainId in Hplain. congruence.
  - rewrite decide_True; [reflexivity|]. split; [|exact Hinherited].
    apply list_elem_of_fmap. exists variant. split; [reflexivity|exact Hv].
Qed.

(** X19. Whatever the record held before, after generation and
    reconciliation the payload has as many rows as the product of the
    value-list sizes of the groups that pass the filter. *)
Theorem payload_row_count (groups : list OptionGroup)
    (prev : gmap string VariantForm) :
  exists variants,
    generateVariants groups = Some variants /\
    length
      (vc_variants
         (watchCallback groups variants
            (Some (reconcile variants (Some prev))))) =
    fold_right Nat.mul 1
      (map (fun group => length (og_values group))
         (List.filter validGroup groups)).
Proof.
  destruct (generateVariants groups) as [variants|] eqn:Hgen;
    [|rewrite generateVariants_eq in Hgen; discriminate].
  exists variants. split; [reflexivity|].
  rewrite <- (generateVariants_length _ _ Hgen).
  rewrite watchCallback_rows. symmetry. eapply Forall2_length.
  apply rows_all. intros variant Hv. apply reconcile_rowOf, Hv.
Qed.

(** ** Emission: rows and positions *)

(** When every generated id has an entry, the row at a position is the one
    of the variant at that position. *)
Lemma rows_lookup (rec : gmap string VariantForm)
    (variants : list GeneratedVariant) (i : nat) :
  Forall (fun variant => is_Some (rec !! gv_id variant)) variants ->
  omap (rowOf rec) variants !! i =
  match variants !! i with
  | Some variant => rowOf rec variant
  | None => None
  end.
Proof.
  intros Hall. revert i.
  induction Hall as [|variant variants [formVariant Hrec] _ IH]; intros i.
  - rewrite !lookup_nil. reflexivity.
  - cbn [omap list_omap]. unfold rowOf at 1. rewrite Hrec.
    destruct i as [|i]; simpl.
    + unfold rowOf. rewrite Hrec. reflexivity.
    + apply IH.
Qed.

(** X20. When every generated id has an entry in the record, the payload
    keeps the positions of the generator: the row at position [i] is built
    from the variant at position [i] and the entry of its id. *)
Theorem watchCallback_row_at (optionGroups : list OptionGroup)
    (variants : list GeneratedVariant) (rec : gmap string VariantForm)
    (i : nat) :
  Forall (fun variant => is_Some (rec !! gv_id variant)) variants ->
  vc_variants (watchCallback optionGroups variants (Some rec)) !! i =
  match variants !! i with
  | Some variant =>
      match rec !! gv_id variant with
      | Some formVariant => Some (activeVariantOf formVariant variant)
      | None => None
      end
  | None => None
  end.
Proof.
  intros Hall. rewrite watchCallback_rows, rows_lookup by exact Hall.
  destruct (variants !! i) as [variant|] eqn:Hi; [|reflexivity].
  unfold rowOf. rewrite Forall_forall in Hall.
  destruct (Hall variant) as [formVariant ->];
    [eapply list_elem_of_lookup_2, Hi|].
  reflexivity.
Qed.

Lemma watchCallback_row_at_witness :
  vc_variants (watchCallback [colorGroup] colorVariants
                 (Some (reconcile colorVariants (Some editedRecord)))) !! 0 =
  Some {| av_enabled := false; av_sku := "RED-1"; av_price := "";
          av_stock := "3";
          av_options := [mkVariantOption "Color" "Red" "r"] |}.
Proof.
  refine (watchCallback_row_at [colorGroup] colorVariants
            (reconcile colorVariants (Some editedRecord)) 0 _).
  by_evaluation.
Defined.

(** X21. Two generated variants with the same id share one entry of the
    record: their rows carry the same enabled flag, sku, price and stock. *)
Theorem shared_id_shared_fields (optionGroups : list OptionGroup)
    (variants : list GeneratedVariant) (rec : gmap string VariantForm)
    (i j : nat) (v1 v2 : GeneratedVariant) (row1 row2 : ActiveVariant) :
  Forall (fun variant => is_Some (rec !! gv_id variant)) variants ->
  variants !! i = Some v1 -> variants !! j = Some v2 ->
  gv_id v1 = gv_id v2 ->
  vc_variants (watchCallback optionGroups variants (Some rec)) !! i =
    Some row1 ->
  vc_variants (watchCallback optionGroups variants (Some rec)) !! j =
    Some row2 ->
  av_enabled row1 = av_enabled row2 /\ av_sku row1 = av_sku row2 /\
  av_price row1 = av_price row2 /\ av_stock row1 = av_stock row2.
Proof.
  intros Hall Hi Hj Hid.
  rewrite watchCallback_rows, !rows_lookup, Hi, Hj by exact Hall.
  unfold rowOf. rewrite <- Hid.
  destruct (rec !! gv_id v1) as [formVariant|];
    [|destruct (inheritedName (gv_id v1)); [|discriminate]];
    intros [= <-] [= <-]; repeat split.
Qed.

Lemma shared_id_shared_fields_witness :
  let rec : gmap string VariantForm :=
    {["a-b-c" := mkVariantForm (Some true) (Some "ONE") (Some "5") None]} in
  let row1 :=
    mkActiveVariant true "ONE" "5" ""
      [mkVariantOption "A" "x" "a"; mkVariantOption "B" "p" "b-c"] in
  let row2 :=
    mkActiveVariant true "ONE" "5" ""
      [mkVariantOption "A" "y" "a-b"; mkVariantOption "B" "q" "c"] in
  av_enabled row1 = av_enabled row2 /\ av_sku row1 = av_sku row2 /\
  av_price row1 = av_price row2 /\ av_stock row1 = av_stock row2.
Proof.
  intros rec row1 row2.
  refine (shared_id_shared_fields [] clashVariants rec 0 1
            (variantOfCombination
               [mkVariantOption "A" "x" "a"; mkVariantOption "B" "p" "b-c"])
            (variantOfCombination
               [mkVariantOption "A" "y" "a-b"; mkVariantOption "B" "q" "c"])
            row1 row2 _ _ _ _ _ _).
  - by_evaluation.
  - reflexivity.
  - reflexivity.
  - reflexivity.
  - vm_compute. reflexivity.
  - vm_compute. reflexivity.
Defined.

(** X22. The payload never reads the name, the values nor the enabled, sku,
    price and stock fields of a generated variant: two generated lists with
    the same ids and the same options give the same payload. *)
Theorem watchCallback_reads_id_and_options (optionGroups : list OptionGroup)
    (variants variants' : list GeneratedVariant)
    (value_variants : option (gmap string VariantForm)) :
  map gv_id variants = map gv_id variants' ->
  map gv_options variants = map gv_options variants' ->
  watchCallback optionGroups variants value_variants =
  watchCallback optionGroups variants' value_variants.
Proof.
  intros Hids Hopts. unfold watchCallback. f_equal.
  rewrite !watch_loop_rows. f_equal.
  revert variants' Hids Hopts.
  induction variants as [|v variants IH]; intros [|v' variants'] Hids Hopts;
    try discriminate; [reflexivity|].
  injection Hids as Hid Hids. injection Hopts as Hopt Hopts.
  cbn [omap list_omap]. rewrite (IH variants' Hids Hopts).
  unfold rowOf, activeVariantOf, defaultedRow. rewrite Hid, Hopt.
  reflexivity.
Qed.

Lemma watchCallback_reads_id_and_options_witness :
  watchCallback [colorGroup] colorVariants (Some editedRecord) =
  watchCallback [colorGroup] colorVariantsTouched (Some editedRecord).
Proof.
  apply watchCallback_reads_id_and_options; reflexivity.
Defined.

(** X23. The payload only depends on the entries of the generated ids: two
    records that agree on them give the same payload, whatever else they
    hold. *)
Theorem watchCallback_reads_generated_entries (optionGroups : list OptionGroup)
    (variants : list GeneratedVariant) (rec rec' : gmap string VariantForm) :
  Forall (fun variant => rec !! gv_id variant = rec' !! gv_id variant)
    variants ->
  watchCallback optionGroups variants (Some rec) =
  watchCallback optionGroups variants (Some rec').
Proof.
  intros Hsame. apply watchCallback_ext.
  apply Forall_forall, Hsame.
Qed.

Lemma watchCallback_reads_generated_entries_witness :
  watchCallback [colorGroup] colorVariants
    (Some (reconcile colorVariants (Some editedRecord))) =
  watchCallback [colorGroup] colorVariants
    (Some (<["old" := initialVariantForm]>
             (<["new" := initialVariantForm]>
                (reconcile colorVariants (Some editedRecord))))).
Proof.
  apply watchCallback_reads_generated_entries.
  repeat constructor.
Defined.

(** X24. When the watched value has no record ([value?.variants] is
    [undefined]), the payload has a row, with every field at its default,
    for each generated variant whose id names a member of
    [Object.prototype], and no other row. *)
Theorem watchCallback_undefined (optionGroups : list OptionGroup)
    (variants : list GeneratedVariant) :
  vc_variants (watchCallback optionGroups variants None) =
  map (fun variant =>
         {| av_enabled := true; av_sku := ""; av_price := "";
            av_stock := ""; av_options := gv_options variant |})
    (filter (fun variant => inheritedName (gv_id variant) = true) variants).
Proof.
  unfold watchCallback. cbn [vc_variants orEmpty].
  rewrite watch_loop_rows. cbn [app].
  induction variants as [|variant variants IH]; [reflexivity|].
  cbn [omap list_omap]. rewrite filter_cons. unfold rowOf at 1.
  rewrite lookup_empty.
  destruct (inheritedName (gv_id variant)) eqn:Hinherited.
  - rewrite decide_True by reflexivity. cbn [map]. rewrite IH. reflexivity.
  - rewrite decide_False by discriminate. exact IH.
Qed.

(** * The generator on the heap *)

Section HeapFacts.
Implicit Types (heap fresh : Heap) (l : loc).

(** Cells that are not arrays of variants are never written: a heap keeps
    them when each of them is found again. *)
Lemma decodeVariant_stable heap heap' (variant : VariantObject) v :
  (forall l array, heap !! l = Some array ->
                   (forall elements, array <> VariantArray elements) ->
                   heap' !! l = Some array) ->
  decodeVariant heap variant = Some v ->
  decodeVariant heap' variant = Some v.
Proof.
  intros Hkeep. unfold decodeVariant.
  destruct (heap !! vr_values variant) as [[| | |values|]|] eqn:Hvalues;
    try discriminate.
  destruct (heap !! vr_options variant) as [[| |options| |]|] eqn:Hoptions;
    try discriminate.
  rewrite (Hkeep _ _ Hvalues), (Hkeep _ _ Hoptions) by discriminate.
  intros H. exact H.
Qed.

Lemma decodeVariants_stable heap heap' (variants : list VariantObject) vs :
  (forall l array, heap !! l = Some array ->
                   (forall elements, array <> VariantArray elements) ->
                   heap' !! l = Some array) ->
  Forall2 (fun variant v => decodeVariant heap variant = Some v) variants vs ->
  Forall2 (fun variant v => decodeVariant heap' variant = Some v) variants vs.
Proof.
  intros Hkeep Hall. eapply Forall2_impl; [exact Hall|].
  intros variant v. apply decodeVariant_stable, Hkeep.
Qed.

(** Growing the array of results and allocating after it keeps the other
    cells. *)
Lemma keep_after_push heap (old new : list VariantObject) fresh fresh' :
  forall l array,
    (heap ++ VariantArray old :: fresh) !! l = Some array ->
    (forall elements, array <> VariantArray elements) ->
    (heap ++ VariantArray new :: fresh ++ fresh') !! l = Some array.
Proof.
  intros l array Hl Hkind.
  destruct (Nat.lt_trichotomy l (length heap)) as [Hlt|[->|Hgt]].
  - rewrite lookup_app_l in Hl |- * by exact Hlt. exact Hl.
  - rewrite list_lookup_middle in Hl by reflexivity.
    injection Hl as <-. exfalso. eapply Hkind. reflexivity.
  - rewrite lookup_app_r in Hl |- * by lia.
    destruct (l - length heap) as [|k] eqn:Hk; [lia|].
    simpl in *. apply lookup_app_l_Some, Hl.
Qed.

Lemma decodeGroup_grow heap fresh (group : GroupObject) g :
  decodeGroup heap group = Some g ->
  decodeGroup (heap ++ fresh) group = Some g.
Proof.
  unfold decodeGroup.
  destruct (heap !! go_values group) as [array|] eqn:Hvalues;
    [|discriminate].
  rewrite (lookup_app_l_Some _ _ _ _ Hvalues). intros H. exact H.
Qed.

Lemma decodeGroups_grow heap fresh (groups : list GroupObject) gs :
  Forall2 (fun group g => decodeGroup heap group = Some g) groups gs ->
  Forall2 (fun group g => decodeGroup (heap ++ fresh) group = Some g)
    groups gs.
Proof.
  intros Hall. eapply Forall2_impl; [exact Hall|].
  intros group g. apply decodeGroup_grow.
Qed.

(** A loop invariant for [forEachFrom]. *)
Lemma forEachFrom_invariant (inv : nat -> Heap -> Prop) (array : loc)
    (body : OptionValue -> Run unit) (elements : list OptionValue) :
  (forall k heap, inv k heap -> heap !! array = Some (ValueArray elements)) ->
  (forall k element heap,
     elements !! k = Some element -> inv k heap ->
     exists heap', body element heap = Some (tt, heap') /\ inv (S k) heap') ->
  forall count k heap,
    k + count = length elements ->
    inv k heap ->
    exists heap',
      forEachFrom k count array body heap = Some (tt, heap') /\
      inv (k + count) heap'.
Proof.
  intros Hread Hbody. induction count as [|count IH]; intros k heap Hk Hinv.
  - exists heap. rewrite Nat.add_0_r. split; [reflexivity|exact Hinv].
  - destruct (lookup_lt_is_Some_2 elements k) as [element Helement]; [lia|].
    destruct (Hbody k element heap Helement Hinv) as (heap1 & Hrun & Hinv1).
    destruct (IH (S k) heap1) as (heap' & Hrest & Hinv'); [lia|exact Hinv1|].
    exists heap'. split; [|replace (k + S count) with (S k + count) by lia;
                           exact Hinv'].
    cbn [forEachFrom]. unfold bind, readValues at 1.
    rewrite (Hread k heap Hinv), Helement, Hrun. exact Hrest.
Qed.

End HeapFacts.

Section GeneratorOnHeap.
Implicit Types (heap fresh : Heap) (l : loc).

Lemma bind_run {A B} (m : Run A) (k : A -> Run B) heap a heap' :
  m heap = Some (a, heap') -> bind m k heap = k a heap'.
Proof. unfold bind. intros ->. reflexivity. Qed.

Lemma alloc_run heap (array : Array) :
  alloc array heap = Some (length heap, heap ++ [array]).
Proof. reflexivity. Qed.

Lemma readGroups_run heap l elements :
  heap !! l = Some (GroupArray elements) ->
  readGroups l heap = Some (elements, heap).
Proof. unfold readGroups. intros ->. reflexivity. Qed.

Lemma readValues_run heap l elements :
  heap !! l = Some (ValueArray elements) ->
  readValues l heap = Some (elements, heap).
Proof. unfold readValues. intros ->. reflexivity. Qed.

Lemma readOptions_run heap l elements :
  heap !! l = Some (OptionArray elements) ->
  readOptions l heap = Some (elements, heap).
Proof. unfold readOptions. intros ->. reflexivity. Qed.

Lemma readStrings_run heap l elements :
  heap !! l = Some (StringArray elements) ->
  readStrings l heap = Some (elements, heap).
Proof. unfold readStrings. intros ->. reflexivity. Qed.

Lemma readVariants_run heap l elements :
  heap !! l = Some (VariantArray elements) ->
  readVariants l heap = Some (elements, heap).
Proof. unfold readVariants. intros ->. reflexivity. Qed.

Lemma push_run heap l old elements :
  heap !! l = Some (VariantArray old) ->
  push l elements heap =
  Some (tt, <[l := VariantArray (old ++ elements)]> heap).
Proof. unfold push. intros ->. reflexivity. Qed.

Lemma lookup_alloc heap (array : Array) :
  (heap ++ [array]) !! length heap = Some array.
Proof. apply list_lookup_middle. reflexivity. Qed.

(** The array literal of the closure holds the variant of the combination. *)
Lemma variantArrayOfCombination_run heap (currentCombination : loc)
    (combination : list VariantOption) :
  heap !! currentCombination = Some (OptionArray combination) ->
  exists r fresh variant,
    variantArrayOfCombination currentCombination heap =
      Some (r, heap ++ fresh) /\
    (heap ++ fresh) !! r = Some (VariantArray [variant]) /\
    decodeVariant (heap ++ fresh) variant =
      Some (variantOfCombination combination).
Proof.
  intros Hcc. unfold variantArrayOfCombination.
  erewrite bind_run by (apply readOptions_run, Hcc).
  erewrite bind_run by apply alloc_run.
  erewrite bind_run by (apply readStrings_run, lookup_alloc).
  erewrite bind_run
    by (apply readOptions_run, lookup_app_l_Some, Hcc).
  erewrite bind_run by apply alloc_run.
  erewrite bind_run by (apply readStrings_run, lookup_alloc).
  erewrite bind_run
    by (apply readOptions_run; do 2 apply lookup_app_l_Some; exact Hcc).
  erewrite bind_run by apply alloc_run.
  rewrite alloc_run. rewrite <- !app_assoc. cbn [app].
  do 3 eexists. split; [reflexivity|]. split.
  - rewrite !length_app. cbn [length].
    rewrite lookup_app_r by lia.
    replace (length heap + 3 - length heap) with 3 by lia.
    reflexivity.
  - unfold decodeVariant. cbn [vr_values vr_options].
    rewrite !length_app. cbn [length].
    rewrite (lookup_app_r heap) by lia.
    replace (length heap + 2 - length heap) with 2 by lia.
    cbn [lookup list_lookup].
    rewrite (lookup_app_l_Some _ _ _ _ Hcc). reflexivity.
Qed.

Lemma decodeGroup_values heap (group : GroupObject) g :
  decodeGroup heap group = Some g ->
  heap !! go_values group = Some (ValueArray (og_values g)) /\
  og_name g = go_name group.
Proof.
  unfold decodeGroup.
  destruct (heap !! go_values group) as [[|values| | |]|]; try discriminate.
  intros [= <-]. split; reflexivity.
Qed.

Lemma insert_results heap (old new : list VariantObject) fresh :
  <[length heap := VariantArray new]> (heap ++ VariantArray old :: fresh) =
  heap ++ VariantArray new :: fresh.
Proof.
  rewrite insert_app_r_alt by lia. rewrite Nat.sub_diag. reflexivity.
Qed.

(** From any index within the array, the closure on the heap returns, only
    allocates, and leaves behind its result the variants that the closure
    returns as values. *)
Lemma generateCombinationsOnHeap_run :
  forall n fuel heap (optionGroups : loc) (objects : list GroupObject)
         (groups : list OptionGroup) (currentIndex : nat)
         (currentCombination : loc) (combination : list VariantOption),
    heap !! optionGroups = Some (GroupArray objects) ->
    Forall2 (fun object group => decodeGroup heap object = Some group)
      objects groups ->
    heap !! currentCombination = Some (OptionArray combination) ->
    length objects - currentIndex = n ->
    currentIndex <= length objects ->
    n < fuel ->
    exists r fresh variants,
      generateCombinationsOnHeap fuel optionGroups currentIndex
        currentCombination heap = Some (r, heap ++ fresh) /\
      (heap ++ fresh) !! r = Some (VariantArray variants) /\
      Forall2 (fun variant v => decodeVariant (heap ++ fresh) variant = Some v)
        variants
        (map (fun c => variantOfCombination (combination ++ c))
           (lex_product (map groupOptions (drop currentIndex groups)))).
Proof.
  induction n as [|n IH];
    intros [|fuel] heap og objects groups i cc comb Hog Hgroups Hcc Hn Hle
      Hfuel; try lia;
    pose proof (Forall2_length _ _ _ Hgroups) as Hlen;
    cbn [generateCombinationsOnHeap];
    erewrite bind_run by (apply readGroups_run, Hog).
  - assert (i = length objects) as -> by lia.
    rewrite Nat.eqb_refl.
    destruct (variantArrayOfCombination_run heap cc comb Hcc)
      as (r & fresh & variant & Hrun & Hr & Hdecode).
    exists r, fresh, [variant]. split; [exact Hrun|]. split; [exact Hr|].
    rewrite Hlen, drop_all. cbn [map lex_product]. rewrite app_nil_r.
    constructor; [exact Hdecode|constructor].
  - assert (Hlt : i < length objects) by lia.
    rewrite (proj2 (Nat.eqb_neq i (length objects))) by lia.
    destruct (lookup_lt_is_Some_2 objects i Hlt) as [object Hobject].
    rewrite Hobject.
    destruct (Forall2_lookup_l _ _ _ _ _ Hgroups Hobject)
      as (group & Hgroup & Hdecode).
    destruct (decodeGroup_values _ _ _ Hdecode) as [Hvalues Hname].
    rewrite (drop_S _ _ _ Hgroup). cbn [map lex_product].
    set (rest := lex_product (map groupOptions (drop (S i) groups))).
    erewrite bind_run by apply alloc_run.
    set (inv := fun (k : nat) (h : Heap) =>
           exists variants fresh,
             h = heap ++ VariantArray variants :: fresh /\
             Forall2 (fun variant v => decodeVariant h variant = Some v)
               variants
               (map (fun c => variantOfCombination (comb ++ c))
                  (flat_map (fun x => map (cons x) rest)
                     (take k (groupOptions group))))).
    assert (Hloop : exists heap',
      forEach (go_values object)
        (fun optionValue =>
           let! combination := readOptions cc in
           let! newCombination :=
             alloc (OptionArray
                      (combination ++
                       [ {| vo_name := go_name object;
                            vo_value := ov_value optionValue;
                            vo_id := ov_id optionValue |} ])) in
           let! subResults :=
             generateCombinationsOnHeap fuel og (i + 1) newCombination in
           let! elements := readVariants subResults in
           push (length heap) elements)
        (heap ++ [VariantArray []]) = Some (tt, heap') /\
      inv (length (og_values group)) heap').
    { unfold forEach.
      erewrite bind_run
        by (apply readValues_run, lookup_app_l_Some, Hvalues).
      apply (forEachFrom_invariant inv (go_values object) _
               (og_values group)).
      - intros k h (variants & fresh & -> & _).
        apply lookup_app_l_Some, Hvalues.
      - intros k optionValue h Hk (variants & fresh & -> & Hvariants).
        set (option := {| vo_name := go_name object;
                          vo_value := ov_value optionValue;
                          vo_id := ov_id optionValue |}).
        erewrite bind_run
          by (apply readOptions_run, lookup_app_l_Some, Hcc).
        erewrite bind_run by apply alloc_run.
        rewrite <- app_assoc. cbn [app].
        set (fresh1 := fresh ++ [OptionArray (comb ++ [option])]).
        destruct (IH fuel (heap ++ VariantArray variants :: fresh1) og
                    objects groups (i + 1)
                    (length (heap ++ VariantArray variants :: fresh))
                    (comb ++ [option]))
          as (r & fresh2 & sub & Hrun & Hr & Hsub).
        + apply lookup_app_l_Some, Hog.
        + apply decodeGroups_grow, Hgroups.
        + unfold fresh1. rewrite app_comm_cons, app_assoc.
          apply lookup_alloc.
        + lia.
        + lia.
        + lia.
        + erewrite bind_run by exact Hrun.
          erewrite bind_run by (apply readVariants_run, Hr).
          rewrite <- app_assoc. cbn [app].
          erewrite push_run by (apply list_lookup_middle; reflexivity).
          rewrite insert_results.
          eexists. split; [reflexivity|].
          exists (variants ++ sub), (fresh1 ++ fresh2).
          split; [reflexivity|].
          assert (Hoption : groupOptions group !! k = Some option).
          { unfold groupOptions. rewrite list_lookup_fmap, Hk.
            unfold option. rewrite Hname. reflexivity. }
          rewrite (take_S_r _ _ _ Hoption), flat_map_app, map_app.
          cbn [flat_map]. rewrite app_nil_r, map_map.
          apply Forall2_app.
          * eapply decodeVariants_stable; [|exact Hvariants].
            intros l array Hl Hkind.
            replace (fresh1 ++ fresh2)
              with (fresh ++ ([OptionArray (comb ++ [option])] ++ fresh2))
              by (unfold fresh1; rewrite <- app_assoc; reflexivity).
            eapply keep_after_push; eassumption.
          * eapply (decodeVariants_stable
                      ((heap ++ VariantArray variants :: fresh1) ++ fresh2)).
            -- intros l array Hl Hkind.
               rewrite <- (app_nil_r (fresh1 ++ fresh2)).
               eapply keep_after_push; [|exact Hkind].
               rewrite <- app_assoc in Hl. exact Hl.
            -- replace (map (fun x => variantOfCombination
                                        (comb ++ option :: x)) rest)
                 with (map (fun c => variantOfCombination
                                       ((comb ++ [option]) ++ c)) rest)
                 by (apply map_ext; intros c; rewrite <- app_assoc;
                     reflexivity).
               rewrite Nat.add_1_r in Hsub. exact Hsub.
      - reflexivity.
      - exists [], []. split; [reflexivity|]. constructor. }
    destruct Hloop as (heap' & Hrun & variants & fresh & -> & Hvariants).
    erewrite bind_run by exact Hrun.
    exists (length heap), (VariantArray variants :: fresh), variants.
    split; [reflexivity|]. split; [apply list_lookup_middle; reflexivity|].
    rewrite take_ge in Hvariants
      by (unfold groupOptions; rewrite length_map; lia).
    exact Hvariants.
Qed.

Lemma validGroupOnHeap_run heap (object : GroupObject) group :
  decodeGroup heap object = Some group ->
  validGroupOnHeap object heap = Some (validGroup group, heap).
Proof.
  intros Hdecode.
  destruct (decodeGroup_values _ _ _ Hdecode) as [Hvalues Hname].
  unfold validGroupOnHeap, validGroup. rewrite Hname.
  destruct (truthy_string (go_name object)); [|reflexivity].
  erewrite bind_run by (apply readValues_run, Hvalues). reflexivity.
Qed.

(** The filter on the heap keeps the groups the filter on values keeps, and
    writes nothing. *)
Lemma filterValid_run heap (objects : list GroupObject)
    (groups : list OptionGroup) :
  Forall2 (fun object group => decodeGroup heap object = Some group)
    objects groups ->
  exists kept,
    filterValid objects heap = Some (kept, heap) /\
    Forall2 (fun object group => decodeGroup heap object = Some group)
      kept (List.filter validGroup groups).
Proof.
  induction 1 as [|object group objects groups Hdecode _ (kept & Hrun & IH)].
  - exists []. split; [reflexivity|constructor].
  - cbn [filterValid List.filter].
    erewrite bind_run by (apply validGroupOnHeap_run, Hdecode).
    erewrite bind_run by exact Hrun.
    destruct (validGroup group).
    + exists (object :: kept). split; [reflexivity|].
      constructor; assumption.
    + exists kept. split; [reflexivity|exact IH].
Qed.

Lemma defaultVariantArray_run heap :
  exists r fresh variant,
    defaultVariantArray heap = Some (r, heap ++ fresh) /\
    (heap ++ fresh) !! r = Some (VariantArray [variant]) /\
    decodeVariant (heap ++ fresh) variant = Some defaultVariant.
Proof.
  unfold defaultVariantArray.
  erewrite bind_run by apply alloc_run.
  erewrite bind_run by apply alloc_run.
  rewrite alloc_run, <- !app_assoc. cbn [app].
  do 3 eexists. split; [reflexivity|]. split.
  - rewrite !length_app. cbn [length].
    rewrite lookup_app_r by lia.
    replace (length heap + 2 - length heap) with 2 by lia. reflexivity.
  - unfold decodeVariant. cbn [vr_values vr_options].
    rewrite !length_app. cbn [length].
    rewrite (lookup_app_r heap _ (length heap)) by lia.
    rewrite Nat.sub_diag. cbn [lookup list_lookup].
    rewrite (lookup_app_r heap) by lia.
    replace (length heap + 1 - length heap) with 1 by lia. reflexivity.
Qed.

(** [generateVariants] on the heap returns, only allocates, and leaves behind
    its result the variants that [generateVariants] returns as values. *)
Lemma generateVariantsOnHeap_run heap (l : loc) (groups : list OptionGroup) :
  decodeGroups heap l = Some groups ->
  exists r fresh variants,
    generateVariantsOnHeap l heap = Some (r, heap ++ fresh) /\
    decodeVariants (heap ++ fresh) r = Some variants /\
    generateVariants groups = Some variants.
Proof.
  unfold decodeGroups.
  destruct (heap !! l) as [[objects| | | |]|] eqn:Hl; try discriminate.
  intros Hgroups. apply mapM_Some in Hgroups.
  pose proof (Forall2_length _ _ _ Hgroups) as Hlen.
  unfold generateVariantsOnHeap, generateVariants.
  erewrite bind_run by (apply readGroups_run, Hl).
  rewrite <- Hlen.
  destruct (length objects =? 0) eqn:Hempty.
  - destruct (defaultVariantArray_run heap)
      as (r & fresh & variant & Hrun & Hr & Hdecode).
    exists r, fresh, [defaultVariant]. split; [exact Hrun|].
    split; [|reflexivity].
    unfold decodeVariants. rewrite Hr. apply mapM_Some.
    constructor; [exact Hdecode|constructor].
  - destruct (filterValid_run heap objects groups Hgroups)
      as (kept & Hfilter & Hkept).
    erewrite bind_run by exact Hfilter.
    erewrite bind_run by apply alloc_run.
    erewrite bind_run by (apply readGroups_run, lookup_alloc).
    pose proof (Forall2_length _ _ _ Hkept) as Hlenkept.
    cbn zeta. rewrite <- Hlenkept.
    destruct (length kept =? 0) eqn:Hnone.
    + destruct (defaultVariantArray_run (heap ++ [GroupArray kept]))
        as (r & fresh & variant & Hrun & Hr & Hdecode).
      exists r, ([GroupArray kept] ++ fresh), [defaultVariant].
      rewrite app_assoc. split; [exact Hrun|]. split; [|reflexivity].
      unfold decodeVariants. rewrite Hr. apply mapM_Some.
      constructor; [exact Hdecode|constructor].
    + erewrite bind_run by apply alloc_run.
      destruct (generateCombinationsOnHeap_run (length kept)
                  (S (length kept))
                  ((heap ++ [GroupArray kept]) ++ [OptionArray []])
                  (length heap) kept (List.filter validGroup groups) 0
                  (length (heap ++ [GroupArray kept])) [])
        as (r & fresh & variants & Hrun & Hr & Hdecode).
      * apply lookup_app_l_Some, lookup_alloc.
      * rewrite <- app_assoc. apply decodeGroups_grow, Hkept.
      * apply lookup_alloc.
      * lia.
      * lia.
      * lia.
      * exists r, ([GroupArray kept; OptionArray []] ++ fresh).
        eexists. rewrite app_assoc.
        replace (heap ++ [GroupArray kept; OptionArray []])
          with ((heap ++ [GroupArray kept]) ++ [OptionArray []])
          by (rewrite <- app_assoc; reflexivity).
        split; [exact Hrun|]. split.
        -- unfold decodeVariants. rewrite Hr. apply mapM_Some, Hdecode.
        -- rewrite generateCombinations_0, drop_0. reflexivity.
Qed.

End GeneratorOnHeap.

(** ** Claim about purity *)

(** C9. [generateVariants] is a pure, deterministic function.  Run with its
    arrays on a heap, it never throws and has no side effect: the heap after
    the call is the heap before it followed by the arrays the call
    allocated, so no array that existed is written.  What it returns only
    depends on the structure of its input: two calls on structurally
    identical inputs, in any two heaps, return structurally identical lists
    of variants (same ids, same order), and so does a call repeated in the
    heap the first call left, so no state is retained between calls.  That
    list is the one the function [generateVariants] returns on values. *)
Theorem generateVariants_pure (heap1 heap2 : Heap) (groups1 groups2 : loc)
    (groups : list OptionGroup) :
  decodeGroups heap1 groups1 = Some groups ->
  decodeGroups heap2 groups2 = Some groups ->
  exists result1 fresh1 result2 fresh2 variants,
    generateVariantsOnHeap groups1 heap1 = Some (result1, heap1 ++ fresh1) /\
    generateVariantsOnHeap groups2 heap2 = Some (result2, heap2 ++ fresh2) /\
    decodeVariants (heap1 ++ fresh1) result1 = Some variants /\
    decodeVariants (heap2 ++ fresh2) result2 = Some variants /\
    generateVariants groups = Some variants /\
    exists result3 fresh3,
      generateVariantsOnHeap groups1 (heap1 ++ fresh1) =
        Some (result3, (heap1 ++ fresh1) ++ fresh3) /\
      decodeVariants ((heap1 ++ fresh1) ++ fresh3) result3 = Some variants.
Proof.
  intros Hgroups1 Hgroups2.
  destruct (generateVariantsOnHeap_run heap1 groups1 groups Hgroups1)
    as (result1 & fresh1 & variants & Hrun1 & Hdecode1 & Hpure).
  destruct (generateVariantsOnHeap_run heap2 groups2 groups Hgroups2)
    as (result2 & fresh2 & variants2 & Hrun2 & Hdecode2 & Hpure2).
  assert (variants2 = variants) as -> by congruence.
  assert (Hgroups3 : decodeGroups (heap1 ++ fresh1) groups1 = Some groups).
  { revert Hgroups1. unfold decodeGroups.
    destruct (heap1 !! groups1) as [[objects| | | |]|] eqn:Hl;
      try discriminate.
    rewrite (lookup_app_l_Some _ _ _ _ Hl). rewrite !mapM_Some.
    apply decodeGroups_grow. }
  destruct (generateVariantsOnHeap_run (heap1 ++ fresh1) groups1 groups
              Hgroups3)
    as (result3 & fresh3 & variants3 & Hrun3 & Hdecode3 & Hpure3).
  assert (variants3 = variants) as -> by congruence.
  exists result1, fresh1, result2, fresh2, variants.
  repeat (split; [assumption|]).
  exists result3, fresh3. split; assumption.
Qed.

Lemma generateVariants_pure_witness :
  exists result1 fresh1 result2 fresh2 variants,
    generateVariantsOnHeap 3 sampleHeap =
      Some (result1, sampleHeap ++ fresh1) /\
    generateVariantsOnHeap 1 otherHeap = Some (result2, otherHeap ++ fresh2) /\
    decodeVariants (sampleHeap ++ fresh1) result1 = Some variants /\
    decodeVariants (otherHeap ++ fresh2) result2 = Some variants /\
    generateVariants [colorGroup; namelessGroup; sizeGroup] = Some variants /\
    exists result3 fresh3,
      generateVariantsOnHeap 3 (sampleHeap ++ fresh1) =
        Some (result3, (sampleHeap ++ fresh1) ++ fresh3) /\
      decodeVariants ((sampleHeap ++ fresh1) ++ fresh3) result3 =
        Some variants.
Proof.
  apply (generateVariants_pure sampleHeap otherHeap 3 1
           [colorGroup; namelessGroup; sizeGroup]);
    vm_compute; reflexivity.
Defined.
